(** * Wolf scorekeeper: rotation resolver and scoring engine

    A shallow embedding of the scoring code of [src/assets/app.js].  The file
    holds two generations of the application, each in its own closure:

    - the current one (second closure, [POINTS_UNIT = 1]) with
      [rotatedOrderForHole] and the all-pairs [computeScores];
    - the earlier one (first closure, [POINTS_UNIT = 6]) whose
      [computeScores] splits a pooled pot; it lives in [Module Legacy].

    JavaScript numbers are modelled by [num]: an exact integer or [NaN].
    Every amount the engine computes is an integer, and the only way to
    leave the integers is to read a property that is absent from an object
    ([undefined + k] is [NaN]).  Integer arithmetic is taken to be exact,
    which is what the source does below 2^53.

    JavaScript objects used as dictionaries ([totals], [won], [lost],
    [deltaByPlayer]) are finite maps from property names to [num]. *)

From Stdlib Require Import ZArith Lia.
From stdpp Require Import gmap strings list fin_maps pretty.

Open Scope Z_scope.

(** ** Numbers and objects *)

Inductive num : Type :=
  | Int (z : Z)
  | NaN.

Global Instance num_eq_dec : EqDecision num.
Proof. solve_decision. Defined.

Definition num_add (a b : num) : num :=
  match a, b with
  | Int x, Int y => Int (x + y)
  | _, _ => NaN
  end.

(** [o[k]] used as an operand of [+]: an absent property is [undefined],
    which arithmetic turns into [NaN].  The keys are read as own
    properties: a key that names a property of [Object.prototype]
    ([constructor], [toString], ...) is outside the model; the identifiers
    of a roster, [p1], [p2], ..., are never such names. *)
Definition readNum (o : gmap string num) (k : string) : num :=
  default NaN (o !! k).

(** [o[k] += z] *)
Definition addTo (o : gmap string num) (k : string) (z : Z) : gmap string num :=
  <[k := num_add (readNum o k) (Int z)]> o.

(** [Object.fromEntries(ids.map(pid => [pid, 0]))] *)
Definition zeroObject (ids : list string) : gmap string num :=
  list_to_map ((λ pid, (pid, Int 0)) <$> ids).

(** Sum of the properties of [o] named by [ids]. *)
Definition sumOver (o : gmap string num) (ids : list string) : num :=
  foldr (λ pid acc, num_add (readNum o pid) acc) (Int 0) ids.

(** ** Game state *)

Record Player := { player_id : string; player_name : string }.

Record Options := { pushTies : bool; blindWolf : bool }.

Inductive Result := WOLF | OTHER | TIE.

Global Instance Result_eq_dec : EqDecision Result.
Proof. solve_decision. Defined.

(** One entry of [game.holes]; [result = None] is JavaScript's [null]. *)
Record Hole := {
  partnerId : option string;
  loneWolf : bool;
  result : option Result;
  blind : bool;
}.

Record Game := {
  players : list Player;
  holeCount : nat;
  options : Options;
  holes : list Hole;
}.

(** [g.holes[i] ?? {}]: every field of [{}] is [undefined], which the engine
    reads exactly as it reads the fields of a fresh hole. *)
Definition emptyHole : Hole :=
  {| partnerId := None; loneWolf := false; result := None; blind := false |}.

Definition holeAt (g : Game) (i : nat) : Hole :=
  default emptyHole (holes g !! i).

Definition playerIds (g : Game) : list string := player_id <$> players g.

(** ** Rotation resolver *)

(** [rotatedOrderForHole]; [computeScores] inlines the same four lines.
    With an empty roster JavaScript computes [cut = NaN] and both slices of
    the empty array are empty, which is also what [drop] and [take] give. *)
Definition rotatedOrderForHole (g : Game) (holeIndex : nat) : list string :=
  let n := length (players g) in
  let offset := (holeIndex mod n)%nat in
  let base := playerIds g in
  let cut := ((n - offset) mod n)%nat in
  drop cut base ++ take cut base.

(** [order[order.length - 1]]; [None] is [undefined] (empty roster). *)
Definition wolfIdOf (order : list string) : option string := last order.

(** [order.slice(0, -1)] *)
Definition othersOf (order : list string) : list string :=
  take (length order - 1)%nat order.

(** A value of type [identifier | undefined] used as a property name. *)
Definition propertyKey (x : option string) : string :=
  default "undefined"%string x.

(** ** Scoring engine (current generation) *)

Definition POINTS_UNIT : Z := 1.

(** The [status] strings of the breakdown; ['TIE'] is [TIED] here, the name
    [TIE] being taken by the result of a hole. *)
Inductive Status := NOT_SCORED | TIED | WOLF_WIN | OTHER_WIN.

Global Instance Status_eq_dec : EqDecision Status.
Proof. solve_decision. Defined.

Record Entry := {
  hole : nat;
  status : Status;
  statusLabel : string;
  deltaByPlayer : gmap string num;
}.

(** The variables [computeScores] updates while it walks the holes. *)
Record State := {
  st_totals : gmap string num;
  st_won : gmap string num;
  st_lost : gmap string num;
  st_perHole : list Entry;
  carryPerPlayer : Z;
}.

Definition initialState (g : Game) : State :=
  {| st_totals := zeroObject (playerIds g);
     st_won := zeroObject (playerIds g);
     st_lost := zeroObject (playerIds g);
     st_perHole := [];
     carryPerPlayer := 0 |}.

Definition pushEntry (st : State) (e : Entry) : State :=
  {| st_totals := st_totals st; st_won := st_won st; st_lost := st_lost st;
     st_perHole := st_perHole st ++ [e];
     carryPerPlayer := carryPerPlayer st |}.

Definition setCarry (st : State) (c : Z) : State :=
  {| st_totals := st_totals st; st_won := st_won st; st_lost := st_lost st;
     st_perHole := st_perHole st;
     carryPerPlayer := c |}.

(** The closure [applyDelta]: it updates the per-hole map it is handed and
    the three running maps of the enclosing call. *)
Definition applyDelta (acc : State * gmap string num) (pid : string)
    (deltaUnits : Z) : State * gmap string num :=
  let '(st, delta) := acc in
  if deltaUnits =? 0 then acc
  else
    let delta' :=
      <[pid := num_add (default (Int 0) (delta !! pid)) (Int deltaUnits)]> delta in
    let totals' := addTo (st_totals st) pid deltaUnits in
    let won' :=
      if 0 <? deltaUnits then addTo (st_won st) pid deltaUnits else st_won st in
    let lost' :=
      if deltaUnits <? 0 then addTo (st_lost st) pid (Z.abs deltaUnits)
      else st_lost st in
    ({| st_totals := totals'; st_won := won'; st_lost := lost';
        st_perHole := st_perHole st;
        carryPerPlayer := carryPerPlayer st |}, delta').

(** [ids.forEach(pid => applyDelta(deltaByPlayer, pid, deltaUnits))] *)
Definition applyAll (acc : State * gmap string num) (ids : list string)
    (deltaUnits : Z) : State * gmap string num :=
  fold_left (λ a pid, applyDelta a pid deltaUnits) ids acc.

Definition isBlind (g : Game) (h : Hole) : bool :=
  blindWolf (options g) && blind h.

Definition baseWagerPerPlayer (g : Game) (h : Hole) : Z :=
  1 + (if isBlind g h then 1 else 0).

Definition wagerPerPlayer (g : Game) (carry : Z) (h : Hole) : Z :=
  (if pushTies (options g) then carry else 0) + baseWagerPerPlayer g h.

(** [!partnerId || partnerId === wolfId]: the empty string is falsy too. *)
Definition invalidPartner (partner : option string) (wolfId : option string) : bool :=
  match partner with
  | None => true
  | Some p => bool_decide (p = ""%string) || bool_decide (Some p = wolfId)
  end.

(** The two sides of a decisive hole, [(winners, losers, statusLabel)], or
    [None] when a team hole has no usable partner. *)
Definition sides (order : list string) (h : Hole) (wolfWon : bool)
    : option (list string * list string * string) :=
  let wolfId := wolfIdOf order in
  let others := othersOf order in
  if loneWolf h then
    Some (if wolfWon then [propertyKey wolfId] else others,
          if wolfWon then others else [propertyKey wolfId],
          if wolfWon then "Lone Wolf wins" else "Little Piggie win")%string
  else if invalidPartner (partnerId h) wolfId then None
  else
    let wolfTeam := [propertyKey wolfId; propertyKey (partnerId h)] in
    let otherTeam := filter (λ pid, pid ∉ wolfTeam) order in
    Some (if wolfWon then wolfTeam else otherTeam,
          if wolfWon then otherTeam else wolfTeam,
          if wolfWon then "Wolf Pack wins" else "Little Piggies win")%string.

(** One iteration of the loop over the holes. *)
Definition scoreHole (g : Game) (st : State) (i : nat) : State :=
  let h := holeAt g i in
  let order := rotatedOrderForHole g i in
  let deltaByPlayer := zeroObject (playerIds g) in
  let notScored :=
    {| hole := i + 1; status := NOT_SCORED; statusLabel := "Not scored";
       deltaByPlayer := deltaByPlayer |} in
  match result h with
  | None => pushEntry st notScored
  | Some TIE =>
      let st1 :=
        if pushTies (options g) then setCarry st (carryPerPlayer st + 1) else st in
      pushEntry st1
        {| hole := i + 1; status := TIED; statusLabel := "Tie";
           deltaByPlayer := deltaByPlayer |}
  | Some r =>
      let wagerUnits := wagerPerPlayer g (carryPerPlayer st) h * POINTS_UNIT in
      let st1 := if pushTies (options g) then setCarry st 0 else st in
      let wolfWon := bool_decide (r = WOLF) in
      match sides order h wolfWon with
      | None => pushEntry st1 notScored
      | Some (winners, losers, label) =>
          let winnerCount := Z.of_nat (length winners) in
          let loserCount := Z.of_nat (length losers) in
          let acc1 := applyAll (st1, deltaByPlayer) winners (wagerUnits * loserCount) in
          let acc2 := applyAll acc1 losers (- wagerUnits * winnerCount) in
          pushEntry acc2.1
            {| hole := i + 1;
               status := if wolfWon then WOLF_WIN else OTHER_WIN;
               statusLabel := label;
               deltaByPlayer := acc2.2 |}
      end
  end.

(** The state after the first [k] iterations. *)
Definition loop (g : Game) (k : nat) : State :=
  fold_left (scoreHole g) (seq 0 k) (initialState g).

Record Scores := {
  totals : gmap string num;
  won : gmap string num;
  lost : gmap string num;
  holesScoredCount : nat;
  perHole : list Entry;
}.

Definition computeScores (g : Game) : Scores :=
  let st := loop g (holeCount g) in
  {| totals := st_totals st;
     won := st_won st;
     lost := st_lost st;
     holesScoredCount :=
       length (filter (λ e, status e ≠ NOT_SCORED) (st_perHole st));
     perHole := st_perHole st |}.

(** ** Scoring engine (earlier generation: pooled pot) *)

Module Legacy.

Definition POINTS_UNIT : Z := 6.

Record Entry := {
  hole : nat;
  mult : Z;
  pushCount : Z;
  desc : string;
}.

Record State := {
  st_totals : gmap string num;
  st_perHole : list Entry;
  st_pushCount : Z;
}.

Definition initialState (g : Game) : State :=
  {| st_totals := zeroObject (playerIds g); st_perHole := []; st_pushCount := 0 |}.

(** [for (const pid of ids) totals[pid] += z] *)
Definition addToAll (o : gmap string num) (ids : list string) (z : Z)
    : gmap string num :=
  fold_left (λ o' pid, addTo o' pid z) ids o.

(** [winners.forEach((pid, idx) =>
       totals[pid] += shareUnits + (idx === 0 ? remainder : 0))] *)
Definition distribute (o : gmap string num) (winners : list string)
    (shareUnits remainder : Z) : gmap string num :=
  fold_left
    (λ o' '(idx, pid),
       addTo o' pid (shareUnits + (if (idx =? 0)%nat then remainder else 0)))
    (imap (λ idx pid, (idx, pid)) winners) o.

(** One iteration of the loop.  [Math.floor(potUnits / winners.length)] is
    [Z.div]: the pot is never negative, and with no winner at all the
    quotient is not used (the [forEach] has nothing to visit). *)
Definition scoreHole (g : Game) (st : State) (i : nat) : State :=
  let h := holeAt g i in
  let order := rotatedOrderForHole g i in
  let wolfId := wolfIdOf order in
  let others := othersOf order in
  let pushCount0 := st_pushCount st in
  let baseMult := if pushTies (options g) then pushCount0 + 1 else 1 in
  let blindMult := if blindWolf (options g) && blind h then 2 else 1 in
  let mult0 := baseMult * blindMult in
  let multUnits := mult0 * POINTS_UNIT in
  let push tot pc e :=
    {| st_totals := tot; st_perHole := st_perHole st ++ [e]; st_pushCount := pc |} in
  match result h with
  | None =>
      push (st_totals st) pushCount0
        {| hole := i + 1; mult := mult0; pushCount := pushCount0;
           desc := "Not scored" |}
  | Some TIE =>
      push (st_totals st)
        (if pushTies (options g) then pushCount0 + 1 else pushCount0)
        {| hole := i + 1; mult := mult0; pushCount := pushCount0; desc := "Tie" |}
  | Some r =>
      let pc := if pushTies (options g) then 0 else pushCount0 in
      if loneWolf h then
        let k := length others in
        let swingUnits := Z.of_nat k * 1 * multUnits in
        if bool_decide (r = WOLF) then
          push
            (addToAll (addTo (st_totals st) (propertyKey wolfId) swingUnits)
               others (- (1 * multUnits)))
            pc
            {| hole := i + 1; mult := mult0; pushCount := 0;
               desc := "Lone Wolf win (+" +:+ pretty k +:+ " each)" |}
        else
          push
            (addToAll (addTo (st_totals st) (propertyKey wolfId) (- swingUnits))
               others (1 * multUnits))
            pc
            {| hole := i + 1; mult := mult0; pushCount := 0;
               desc := "Lone Wolf loss (-" +:+ pretty k +:+ " each)" |}
      else if invalidPartner (partnerId h) wolfId then
        push (st_totals st) pc
          {| hole := i + 1; mult := mult0; pushCount := 0;
             desc := "Invalid partner (not scored)" |}
      else
        let wolfTeam := [propertyKey wolfId; propertyKey (partnerId h)] in
        let otherTeam := filter (λ pid, pid ∉ wolfTeam) order in
        let wolfWon := bool_decide (r = WOLF) in
        let winners := if wolfWon then wolfTeam else otherTeam in
        let losers := if wolfWon then otherTeam else wolfTeam in
        let potUnits := Z.of_nat (length losers) * 1 * multUnits in
        let shareUnits := potUnits `div` Z.of_nat (length winners) in
        let remainder := potUnits - shareUnits * Z.of_nat (length winners) in
        let winLabel := (if wolfWon then "Wolf Team win" else "Other Team win")%string in
        push
          (distribute (addToAll (st_totals st) losers (- (1 * multUnits)))
             winners shareUnits remainder)
          pc
          {| hole := i + 1; mult := mult0; pushCount := 0;
             desc := winLabel +:+ " (pot " +:+ pretty (length losers) +:+ ")" |}
  end.

Definition loop (g : Game) (k : nat) : State :=
  fold_left (scoreHole g) (seq 0 k) (initialState g).

Record Scores := {
  totals : gmap string num;
  perHole : list Entry;
}.

Definition computeScores (g : Game) : Scores :=
  let st := loop g (holeCount g) in
  {| totals := st_totals st; perHole := st_perHole st |}.

End Legacy.

(** * Vocabulary of the properties *)

(** [intOn ids o f]: every property of [o] named in [ids] holds the integer
    [f pid]. *)
Definition intOn (ids : list string) (o : gmap string num) (f : string → Z) : Prop :=
  ∀ p, p ∈ ids → o !! p = Some (Int (f p)).

(** [d] for the members of [l], nothing for anybody else. *)
Definition share (l : list string) (d : Z) (p : string) : Z :=
  if decide (p ∈ l) then d else 0.

(** The sum of [f] over a list of players. *)
Definition sumZ (f : string → Z) (l : list string) : Z :=
  foldr (λ p acc, f p + acc) 0 l.

(** The three running maps and the per-hole map hold integers on [ids]. *)
Definition tracks (ids : list string) (acc : State * gmap string num)
    (ft fw fl fd : string → Z) : Prop :=
  intOn ids (st_totals acc.1) ft ∧ intOn ids (st_won acc.1) fw
  ∧ intOn ids (st_lost acc.1) fl ∧ intOn ids acc.2 fd.

(** What hole [i] moves, per player, for sides [W] and [L]. *)
Definition transfer (g : Game) (st : State) (i : nat) (W L : list string)
    (p : string) : Z :=
  let wagerUnits := wagerPerPlayer g (carryPerPlayer st) (holeAt g i) * POINTS_UNIT in
  share W (wagerUnits * Z.of_nat (length L)) p
  + share L (- wagerUnits * Z.of_nat (length W)) p.

(** The partner a team hole needs: set, and one of the players. *)
Definition partnerKnown (g : Game) (h : Hole) : Prop :=
  loneWolf h = false → ∀ p, partnerId h = Some p → p ∈ playerIds g.

Global Instance partnerKnown_dec g h : Decision (partnerKnown g h).
Proof.
  unfold partnerKnown. destruct (loneWolf h).
  - left. done.
  - destruct (partnerId h) as [p |].
    + destruct (decide (p ∈ playerIds g)) as [Hin | Hout].
      * left. by intros _ q [= <-].
      * right. intros H. by apply Hout, H.
    + left. done.
Defined.

(** The entry of a hole that is not scored: all deltas zero. *)
Definition notScoredEntry (g : Game) (i : nat) : Entry :=
  {| hole := i + 1; status := NOT_SCORED; statusLabel := "Not scored";
     deltaByPlayer := zeroObject (playerIds g) |}.

(** The entry of a tied hole: all deltas zero. *)
Definition tieEntry (g : Game) (i : nat) : Entry :=
  {| hole := i + 1; status := TIED; statusLabel := "Tie";
     deltaByPlayer := zeroObject (playerIds g) |}.

(** A decisive outcome: a result that is there and is not a tie. *)
Definition decisive (h : Hole) : Prop :=
  result h = Some WOLF ∨ result h = Some OTHER.

(** [h.result === 'WOLF'] *)
Definition wolfWonOn (h : Hole) : bool := bool_decide (result h = Some WOLF).

(** The state with the same carry and breakdown, and all totals at zero. *)
Definition blank (g : Game) (st : State) : State :=
  {| st_totals := zeroObject (playerIds g);
     st_won := zeroObject (playerIds g);
     st_lost := zeroObject (playerIds g);
     st_perHole := st_perHole st;
     carryPerPlayer := carryPerPlayer st |}.

(** Player identifiers are pairwise different, and the partner recorded on a
    team hole is one of the players. *)
Definition wellFormed (g : Game) : Prop :=
  NoDup (playerIds g) ∧ Forall (partnerKnown g) (holes g).

Global Instance wellFormed_dec g : Decision (wellFormed g).
Proof. unfold wellFormed. apply _. Defined.

(** The delta of one player in one entry, and the sums the claims speak of. *)
Definition deltaOf (e : Entry) (p : string) : Z :=
  match deltaByPlayer e !! p with
  | Some (Int z) => z
  | _ => 0
  end.

(** The sum over a breakdown of [f] applied to the player's delta. *)
Definition sumEntries (f : Z → Z) (es : list Entry) (p : string) : Z :=
  foldr (λ e acc, f (deltaOf e p) + acc) 0 es.

(** All deltas; the positive ones; the magnitudes of the negative ones. *)
Definition netSum : list Entry → string → Z := sumEntries (λ z, z).
Definition wonSum : list Entry → string → Z := sumEntries (λ z, Z.max z 0).
Definition lostSum : list Entry → string → Z := sumEntries (λ z, Z.max (- z) 0).

(** An entry whose deltas are integers on the roster. *)
Definition integral (ids : list string) (e : Entry) : Prop :=
  ∃ f, intOn ids (deltaByPlayer e) f.

(** An entry whose deltas are integers that add up to nothing. *)
Definition balanced (ids : list string) (e : Entry) : Prop :=
  ∃ f, intOn ids (deltaByPlayer e) f ∧ sumZ f ids = 0.

(** The loop invariant: the running maps are the sums over the breakdown
    pushed so far, and every pushed delta is an integer. *)
Record Inv (g : Game) (st : State) : Prop := {
  inv_totals : intOn (playerIds g) (st_totals st) (netSum (st_perHole st));
  inv_won : intOn (playerIds g) (st_won st) (wonSum (st_perHole st));
  inv_lost : intOn (playerIds g) (st_lost st) (lostSum (st_perHole st));
  inv_entries : Forall (integral (playerIds g)) (st_perHole st);
}.

(** The hole as the claim reads it: solo, no partner. *)
Definition asSolo (h : Hole) : Hole :=
  {| partnerId := None; loneWolf := true; result := result h; blind := blind h |}.

(** The game with hole [i] replaced. *)
Definition withHole (g : Game) (i : nat) (h : Hole) : Game :=
  {| players := players g; holeCount := holeCount g; options := options g;
     holes := <[i := h]> (holes g) |}.

(** The claim at hole [i]: the deltas are those of the same hole played
    solo without a partner. *)
Definition scoredAsSolo (g : Game) (i : nat) : Prop :=
  deltaByPlayer <$> perHole (computeScores g) !! i
  = deltaByPlayer <$> perHole (computeScores (withHole g i (asSolo (holeAt g i)))) !! i.

(** The game with more holes appended and the hole count raised to match. *)
Definition extend (g : Game) (extra : list Hole) : Game :=
  {| players := players g;
     holeCount := holeCount g + length extra;
     options := options g;
     holes := holes g ++ extra |}.

(** A total expressed in another unit. *)
Definition scale (c : Z) (x : num) : num :=
  match x with
  | Int z => Int (c * z)
  | NaN => NaN
  end.

(** ** Sample games *)

Definition mkPlayers (ids : list string) : list Player :=
  (λ s, {| player_id := s; player_name := s |}) <$> ids.

Definition four : list Player := mkPlayers ["p1"; "p2"; "p3"; "p4"]%string.
Definition five : list Player := mkPlayers ["p1"; "p2"; "p3"; "p4"; "p5"]%string.

Definition plain : Options := {| pushTies := false; blindWolf := false |}.

Definition lone (r : Result) : Hole :=
  {| partnerId := None; loneWolf := true; result := Some r; blind := false |}.
Definition team (p : string) (r : Result) : Hole :=
  {| partnerId := Some p; loneWolf := false; result := Some r; blind := false |}.
Definition tie : Hole :=
  {| partnerId := None; loneWolf := false; result := Some TIE; blind := false |}.

(** One hole: a lone wolf beaten by the field; a team win with five players. *)
Definition game1 : Game :=
  {| players := four; holeCount := 1; options := plain; holes := [lone OTHER] |}.
Definition game2 : Game :=
  {| players := five; holeCount := 1; options := plain; holes := [team "p1" WOLF] |}.

(** Four players, nothing played. *)
Definition roster4 : Game :=
  {| players := four; holeCount := 0; options := plain; holes := [] |}.

(** Tie, team win, blind lone loss, an unplayed hole, team loss. *)
Definition game3 : Game :=
  {| players := four;
     holeCount := 5;
     options := {| pushTies := true; blindWolf := true |};
     holes := [ tie;
                team "p1" WOLF;
                {| partnerId := None; loneWolf := true; result := Some OTHER;
                   blind := true |};
                emptyHole;
                team "p3" OTHER ] |}.

(** Two ties and a lone-wolf win, ties pushed. *)
Definition game4 : Game :=
  {| players := four;
     holeCount := 3;
     options := {| pushTies := true; blindWolf := false |};
     holes := [ tie; tie; lone WOLF ] |}.

(** A team hole on which no partner was chosen. *)
Definition noPartner (r : Result) : Hole :=
  {| partnerId := None; loneWolf := false; result := Some r; blind := false |}.

(** A tie, a team hole without a partner, a lone-wolf win; ties pushed. *)
Definition game5 : Game :=
  {| players := four;
     holeCount := 3;
     options := {| pushTies := true; blindWolf := false |};
     holes := [ tie; noPartner WOLF; lone WOLF ] |}.

(** One blind hole played with a partner. *)
Definition game6 : Game :=
  {| players := four;
     holeCount := 1;
     options := {| pushTies := false; blindWolf := true |};
     holes := [ {| partnerId := Some "p1"%string; loneWolf := false;
                   result := Some WOLF; blind := true |} ] |}.

(** A lone-wolf win and then a team win. *)
Definition game7 : Game :=
  {| players := four; holeCount := 2; options := plain;
     holes := [ lone WOLF; team "p1" WOLF ] |}.

(** * The rest of the application

    The functions around the engine, from the same file: the helpers both
    generations share, the state normalisation, the setup helpers and the
    state changes made by the handlers of the game screen.  What they do
    to the page (DOM updates, [alert], [localStorage]) is left out; what
    they do to the game is kept. *)

(** ** Helpers *)

(** [clamp]: [Math.max(min, Math.min(max, n))] *)
Definition clamp (n min max : Z) : Z := Z.max min (Z.min max n).

(** The local [gcd] of [formatPoints], [(a, b) => (b === 0 ? a : gcd(b, a % b))],
    on non-negative integers; the second argument shrinks at every call, so
    [b + 1] steps are always enough. *)
Fixpoint gcdSteps (steps : nat) (a b : Z) : Z :=
  match steps with
  | O => a
  | S k => if b =? 0 then a else gcdSteps k b (a `mod` b)
  end.

Definition gcd (a b : Z) : Z := gcdSteps (Z.to_nat b + 1) a b.

(** [Number.isSafeInteger]: the integers a JavaScript number holds exactly,
    on which [/], [%] and [Math.floor] are the integer operations and which
    a template literal prints digit for digit. *)
Definition safeInteger (z : Z) : Prop := Z.abs z < 2 ^ 53.

(** [formatPoints], the same text in both generations, for the unit of the
    generation, on safe integers (beyond them the source rounds, and from
    [1e21] on prints in exponent notation); a non-negative integer is
    printed in decimal, and [rem / g] and [POINTS_UNIT / g] are exact
    divisions. *)
Definition formatPointsIn (unit : Z) (units : Z) : string :=
  let sign := if units <? 0 then "-"%string else EmptyString in
  let abs := Z.abs units in
  let whole := abs `div` unit in
  let rem := abs `mod` unit in
  if rem =? 0 then sign +:+ pretty whole
  else
    let g := gcd rem unit in
    let num := rem `div` g in
    let den := unit `div` g in
    if whole =? 0 then sign +:+ pretty num +:+ "/" +:+ pretty den
    else sign +:+ pretty whole +:+ " " +:+ pretty num +:+ "/" +:+ pretty den.

Definition formatPoints (units : Z) : string := formatPointsIn POINTS_UNIT units.

(** [s.replaceAll(c, r)] for a pattern of one character. *)
Fixpoint replaceAll (c : Ascii.ascii) (r : string) (s : string) : string :=
  match s with
  | EmptyString => EmptyString
  | String a s' =>
      (if decide (a = c) then r else String a EmptyString) +:+ replaceAll c r s'
  end.

(** The characters [escapeHtml] replaces: [&] (38), [<] (60), [>] (62),
    the double quote (34) and the single quote (39). *)
Definition ampChar : Ascii.ascii := Eval cbv in Ascii.ascii_of_nat 38.
Definition ltChar : Ascii.ascii := Eval cbv in Ascii.ascii_of_nat 60.
Definition gtChar : Ascii.ascii := Eval cbv in Ascii.ascii_of_nat 62.
Definition dquoteChar : Ascii.ascii := Eval cbv in Ascii.ascii_of_nat 34.
Definition squoteChar : Ascii.ascii := Eval cbv in Ascii.ascii_of_nat 39.

(** [escapeHtml] *)
Definition escapeHtml (str : string) : string :=
  replaceAll squoteChar "&#039;"
    (replaceAll dquoteChar "&quot;"
       (replaceAll gtChar "&gt;"
          (replaceAll ltChar "&lt;"
             (replaceAll ampChar "&amp;" str)))).

(** [idToName]: [game.players.find(p => p.id === id)?.name ?? 'Unknown'] *)
Definition idToName (g : Game) (id : string) : string :=
  default "Unknown"%string
    (player_name <$> List.find (λ p, bool_decide (player_id p = id)) (players g)).

(** [wolfIdForHole] (earlier generation; the later one inlines it) *)
Definition wolfIdForHole (g : Game) (holeIndex : nat) : option string :=
  wolfIdOf (rotatedOrderForHole g holeIndex).

(** ** Setup *)

(** [buildPlayersFromInputs], from the values of the name inputs, in page
    order.  [trim] is JavaScript's [String.prototype.trim]. *)
Definition buildPlayersFromInputs (trim : string → string) (inputs : list string)
    : list Player :=
  imap (λ i value,
          {| player_id := "p" +:+ pretty (i + 1)%nat;
             player_name :=
               trim (if decide (value = ""%string)
                     then "Player " +:+ pretty (i + 1)%nat else value) |})
       inputs.

(** The hole counts offered by [renderHoleOptionsButtons]. *)
Definition suggested (playerCount : Z) : list Z :=
  if playerCount =? 4 then [8; 12; 16; 20] else [10; 15; 20; 25].

(** The hole count [renderHoleOptionsButtons] stores in [game.holeCount]:
    [selectedHoleCount && suggested.includes(selectedHoleCount)
       ? selectedHoleCount : (playerCount === 4 ? 12 : 15)];
    [None] is an absent ([undefined]) selection. *)
Definition pickHoleCount (playerCount : Z) (selectedHoleCount : option Z) : Z :=
  match selectedHoleCount with
  | Some sel =>
      if negb (sel =? 0) && bool_decide (sel ∈ suggested playerCount) then sel
      else if playerCount =? 4 then 12 else 15
  | None => if playerCount =? 4 then 12 else 15
  end.

(** ** The session *)

(** The global [game] with its cursor; the fields the engine reads are in
    [Game]. *)
Record Session := {
  game : Game;
  currentHoleIndex : Z;
}.

(** [ensureHolesLength], for a [game] that is there, whose [holes] is an
    array and whose cursor is a number: push fresh holes while there are too few, cut when there are too
    many, clamp the cursor. *)
Definition ensureHolesLength (s : Session) : Session :=
  let g := game s in
  let pushed := holes g ++ replicate (holeCount g - length (holes g)) emptyHole in
  let cut :=
    if decide (holeCount g < length pushed)%nat then take (holeCount g) pushed
    else pushed in
  {| game := {| players := players g; holeCount := holeCount g;
                options := options g; holes := cut |};
     currentHoleIndex :=
       clamp (currentHoleIndex s) 0 (Z.of_nat (holeCount g) - 1) |}.

(** What starting a game and saving the settings do after
    [ensureHolesLength]:
    [if (!game.options.blindWolf) game.holes.forEach(h => { h.blind = false; })]. *)
Definition clearBlind (h : Hole) : Hole :=
  {| partnerId := partnerId h; loneWolf := loneWolf h; result := result h;
     blind := false |}.

Definition clearBlindFlags (g : Game) : Game :=
  if blindWolf (options g) then g
  else {| players := players g; holeCount := holeCount g; options := options g;
          holes := clearBlind <$> holes g |}.

(** ** The handlers of the game screen, as changes of the current hole *)

(** [blindToggle.onchange] *)
Definition onBlindChange (checked : bool) (h : Hole) : Hole :=
  if checked then
    {| partnerId := None; loneWolf := true; result := result h; blind := true |}
  else
    {| partnerId := partnerId h; loneWolf := loneWolf h; result := result h;
       blind := false |}.

(** [loneToggle.onchange] *)
Definition onLoneChange (checked : bool) (h : Hole) : Hole :=
  {| partnerId := if checked then None else partnerId h;
     loneWolf := checked;
     result := result h;
     blind := if negb checked && blind h then false else blind h |}.

(** The click on a partner button: ignored on a blind or lone hole. *)
Definition onPartnerClick (pid : string) (h : Hole) : Hole :=
  if blind h || loneWolf h then h
  else {| partnerId := Some pid; loneWolf := loneWolf h; result := result h;
          blind := blind h |}.

(** The click on a result button. *)
Definition onResultClick (r : Result) (h : Hole) : Hole :=
  {| partnerId := partnerId h; loneWolf := loneWolf h; result := Some r;
     blind := blind h |}.

(** [enforceBlindImpliesLone], which every rendering of the screen runs on
    the current hole; the two toggles end by rendering the screen again.
    [if (hole.partnerId) hole.partnerId = null] clears a partner that is
    truthy: an empty string stays. *)
Definition enforceBlindImpliesLone (blindEnabled : bool) (h : Hole) : Hole :=
  if negb blindEnabled then h
  else if negb (blind h) then h
  else {| partnerId :=
            match partnerId h with
            | Some p => if bool_decide (p = ""%string) then Some p else None
            | None => None
            end;
          loneWolf := true; result := result h; blind := blind h |}.

Inductive Event :=
  | Render (blindEnabled : bool)
  | BlindChange (checked : bool)
  | LoneChange (checked : bool)
  | PartnerClick (pid : string)
  | ResultClick (r : Result).

Definition handle (h : Hole) (ev : Event) : Hole :=
  match ev with
  | Render blindEnabled => enforceBlindImpliesLone blindEnabled h
  | BlindChange c => onBlindChange c h
  | LoneChange c => onLoneChange c h
  | PartnerClick pid => onPartnerClick pid h
  | ResultClick r => onResultClick r h
  end.

(** The click on Save: the hole after the blind rule is enforced once more,
    and whether the handler goes on to save ([false] when it stops at an
    [alert]). *)
Definition onSaveHole (g : Game) (i : nat) (h : Hole) : Hole * bool :=
  let wolfId := wolfIdOf (rotatedOrderForHole g i) in
  let h1 :=
    if blind h then
      {| partnerId := None; loneWolf := true; result := result h; blind := blind h |}
    else h in
  match result h1 with
  | None => (h1, false)
  | Some TIE => (h1, true)
  | Some _ =>
      if loneWolf h1 then (h1, true)
      else (h1, negb (invalidPartner (partnerId h1) wolfId))
  end.

(** ** Vocabulary of the further properties *)

(** What the engine makes of hole [i], read off the hole alone. *)
Definition holeStatus (g : Game) (i : nat) : Status :=
  let h := holeAt g i in
  match result h with
  | None => NOT_SCORED
  | Some TIE => TIED
  | Some r =>
      if loneWolf h
         || negb (invalidPartner (partnerId h) (wolfIdOf (rotatedOrderForHole g i)))
      then (if bool_decide (r = WOLF) then WOLF_WIN else OTHER_WIN)
      else NOT_SCORED
  end.

(** The rule the game screen keeps: blind is lone, lone has no partner. *)
Definition exclusive (h : Hole) : Prop :=
  (blind h = true → loneWolf h = true)
  ∧ (loneWolf h = true → partnerId h = None).

(** One character of [escapeHtml]'s output. *)
Definition escapeChar (a : Ascii.ascii) : string :=
  if decide (a = ampChar) then "&amp;"
  else if decide (a = ltChar) then "&lt;"
  else if decide (a = gtChar) then "&gt;"
  else if decide (a = dquoteChar) then "&quot;"
  else if decide (a = squoteChar) then "&#039;"
  else String a EmptyString.

Fixpoint chars (s : string) : list Ascii.ascii :=
  match s with
  | EmptyString => []
  | String a s' => a :: chars s'
  end.

(** The game with other holes. *)
Definition withHoles (g : Game) (hs : list Hole) : Game :=
  {| players := players g; holeCount := holeCount g; options := options g;
     holes := hs |}.

(** The three running maps and the per-hole map have the keys [D]. *)
Definition keyed (D : gset string) (acc : State * gmap string num) : Prop :=
  dom (st_totals acc.1) = D ∧ dom (st_won acc.1) = D
  ∧ dom (st_lost acc.1) = D ∧ dom acc.2 = D.

(** The properties of [o] named in [ids] are integers, multiples of [m],
    that add up to [total]. *)
Definition totalsAre (ids : list string) (m : Z) (o : gmap string num) (total : Z)
    : Prop :=
  ∃ f, intOn ids o f ∧ sumZ f ids = total ∧ ∀ p, (m | f p).


(** * Properties *)

(** ** The rotation resolver *)

Section Rotation.
Context (g : Game).

Local Abbreviation N := (length (players g)).

Lemma length_playerIds : length (playerIds g) = N.
Proof. unfold playerIds. by rewrite length_fmap. Qed.

(** The cut of hole [i] is a position of the roster. *)
Lemma cut_lt i : (0 < N → (N - i mod N) mod N < N)%nat.
Proof. intros. apply Nat.mod_upper_bound. lia. Qed.

Lemma rotatedOrder_rotate i :
  rotatedOrderForHole g i = rotate ((N - i mod N) mod N) (playerIds g).
Proof.
  unfold rotatedOrderForHole, rotate. rewrite length_playerIds.
  destruct (decide (N = 0%nat)) as [-> | ?]; [done |].
  by rewrite Nat.Div0.mod_mod.
Qed.

Lemma length_rotatedOrder i : length (rotatedOrderForHole g i) = N.
Proof. by rewrite rotatedOrder_rotate, length_rotate, length_playerIds. Qed.

Lemma rotatedOrder_perm i : rotatedOrderForHole g i ≡ₚ playerIds g.
Proof.
  unfold rotatedOrderForHole.
  rewrite Permutation_app_comm. by rewrite take_drop.
Qed.

Lemma rotatedOrder_lookup i j :
  (j < N)%nat →
  rotatedOrderForHole g i !! j = playerIds g !! ((j + (N - i mod N) mod N) mod N)%nat.
Proof.
  intros Hj. rewrite rotatedOrder_rotate, lookup_rotate_r
    by (by rewrite length_playerIds).
  unfold rotate_nat_add. rewrite length_playerIds.
  f_equal. rewrite <- Nat2Z.inj_add, <- Nat2Z.inj_mod, Nat2Z.id.
  f_equal. lia.
Qed.

(** Who holds the role on hole [i]: the seat [N - 1 - i mod N]. *)
Lemma wolfId_seat i :
  (0 < N)%nat →
  wolfIdOf (rotatedOrderForHole g i) = playerIds g !! (N - 1 - i mod N)%nat.
Proof.
  intros HN. unfold wolfIdOf.
  rewrite last_lookup, length_rotatedOrder.
  replace (Nat.pred N) with (N - 1)%nat by lia.
  rewrite rotatedOrder_lookup by lia. f_equal.
  pose proof (Nat.mod_upper_bound i N ltac:(lia)) as Hoff.
  destruct (decide (i mod N = 0)%nat) as [E | E].
  - rewrite E, Nat.sub_0_r, Nat.Div0.mod_same, Nat.add_0_r.
    rewrite Nat.mod_small by lia. lia.
  - rewrite (Nat.mod_small (N - i mod N)) by lia.
    replace (N - 1 + (N - i mod N))%nat with ((N - 1 - i mod N) + 1 * N)%nat by lia.
    rewrite Nat.Div0.mod_add. rewrite Nat.mod_small by lia. done.
Qed.

Lemma wolfId_is_player i :
  (0 < N)%nat → ∃ w, wolfIdOf (rotatedOrderForHole g i) = Some w ∧ w ∈ playerIds g.
Proof.
  intros HN. rewrite wolfId_seat by done.
  destruct (lookup_lt_is_Some_2 (playerIds g) (N - 1 - i mod N)%nat) as [w Hw].
  { rewrite length_playerIds. lia. }
  exists w. split; [done |]. by eapply list_elem_of_lookup_2.
Qed.

(** The order of a hole is the field followed by the role-holder. *)
Lemma rotatedOrder_snoc i w :
  wolfIdOf (rotatedOrderForHole g i) = Some w →
  rotatedOrderForHole g i = othersOf (rotatedOrderForHole g i) ++ [w].
Proof.
  unfold wolfIdOf, othersOf. generalize (rotatedOrderForHole g i).
  intros l. destruct l as [| x l] using rev_ind; [done |].
  rewrite last_snoc. intros [= ->].
  rewrite length_app. simpl.
  replace (length l + 1 - 1)%nat with (length l) by lia.
  by rewrite take_app_length.
Qed.

End Rotation.

Lemma mod_shift_ne (N a b : nat) :
  (a < b < a + N → a mod N ≠ b mod N)%nat.
Proof.
  intros [Hab HbN] E.
  assert (HN : (0 < N)%nat) by lia.
  pose proof (Nat.mod_upper_bound a N ltac:(lia)) as Ha.
  replace b with (a + (b - a))%nat in E by lia.
  rewrite <- Nat.Div0.add_mod_idemp_l in E.
  destruct (decide (a mod N + (b - a) < N)%nat) as [Hs | Hs].
  - rewrite (Nat.mod_small (a mod N + (b - a))) in E by lia. lia.
  - replace (a mod N + (b - a))%nat
      with ((a mod N + (b - a) - N) + 1 * N)%nat in E by lia.
    rewrite Nat.Div0.mod_add in E.
    rewrite (Nat.mod_small (a mod N + (b - a) - N)) in E by lia. lia.
Qed.

(** C5.  For a roster of [N ≥ 1] distinct players and every hole index [i],
    the resolver returns [players[cut..N) ++ players[0..cut)] with
    [cut = (N − i mod N) mod N]; this moves the player of seat [j] to
    position [(j + i mod N) mod N] (a right rotation by [i mod N]), is a
    permutation of the roster, gives the same role-holder to holes [i] and
    [i + N], and gives pairwise different role-holders to any two of [N]
    consecutive holes. *)
Theorem rotation_resolver (g : Game) (i : nat) :
  (1 ≤ length (players g))%nat →
  NoDup (playerIds g) →
  let N := length (players g) in
  let cut := ((N - i mod N) mod N)%nat in
  rotatedOrderForHole g i = drop cut (playerIds g) ++ take cut (playerIds g)
  ∧ (∀ j, (j < N)%nat →
       rotatedOrderForHole g i !! ((j + i mod N) mod N)%nat = playerIds g !! j)
  ∧ rotatedOrderForHole g i ≡ₚ playerIds g
  ∧ wolfIdOf (rotatedOrderForHole g (i + N)) = wolfIdOf (rotatedOrderForHole g i)
  ∧ (∀ a b, (i ≤ a ∧ a < b ∧ b < i + N)%nat →
       wolfIdOf (rotatedOrderForHole g a) ≠ wolfIdOf (rotatedOrderForHole g b)).
Proof.
  intros HN Hnd N cut. subst N cut.
  set (N := length (players g)) in *.
  pose proof (Nat.mod_upper_bound i N ltac:(lia)) as Hoff.
  split; [done |]. split; [| split; [apply rotatedOrder_perm | split]].
  - intros j Hj.
    rewrite rotatedOrder_lookup by (apply Nat.mod_upper_bound; lia).
    fold N. f_equal. rewrite Nat.Div0.add_mod_idemp_l.
    destruct (decide (i mod N = 0)%nat) as [E | E].
    + rewrite E. replace (N - 0)%nat with N by lia.
      rewrite Nat.Div0.mod_same, !Nat.add_0_r.
      by rewrite Nat.mod_small.
    + rewrite (Nat.mod_small (N - i mod N)) by lia.
      replace (j + i mod N + (N - i mod N))%nat with (j + 1 * N)%nat by lia.
      rewrite Nat.Div0.mod_add. by rewrite Nat.mod_small.
  - rewrite !wolfId_seat by lia. fold N.
    replace (i + N)%nat with (i + 1 * N)%nat by lia.
    by rewrite Nat.Div0.mod_add.
  - intros a b (Hia & Hab & Hb).
    rewrite !wolfId_seat by lia. fold N.
    pose proof (Nat.mod_upper_bound a N ltac:(lia)) as Ha.
    pose proof (Nat.mod_upper_bound b N ltac:(lia)) as Hb'.
    destruct (lookup_lt_is_Some_2 (playerIds g) (N - 1 - a mod N)%nat) as [w Hw].
    { rewrite length_playerIds. fold N. lia. }
    rewrite Hw. intros Hw'. symmetry in Hw'.
    pose proof (NoDup_lookup _ _ _ _ Hnd Hw Hw') as E.
    apply (mod_shift_ne N a b); lia.
Qed.

Lemma rotation_resolver_witness :
  rotatedOrderForHole roster4 6 = ["p3"; "p4"; "p1"; "p2"]%string
  ∧ wolfIdOf (rotatedOrderForHole roster4 10) = wolfIdOf (rotatedOrderForHole roster4 6).
Proof.
  assert (H1 : (1 ≤ length (players roster4))%nat) by (simpl; lia).
  assert (H2 : NoDup (playerIds roster4)) by (apply (bool_decide_unpack _); vm_compute; exact I).
  destruct (rotation_resolver roster4 6 H1 H2) as (E & _ & _ & Hw & _).
  split; [rewrite E; reflexivity | exact Hw].
Defined.

(** ** Objects whose properties are integers *)

Lemma lookup_zeroObject ids p :
  zeroObject ids !! p = if decide (p ∈ ids) then Some (Int 0) else None.
Proof.
  unfold zeroObject. induction ids as [| x ids IH].
  - rewrite fmap_nil, list_to_map_nil, lookup_empty.
    case_decide as Hin; [| done]. by apply not_elem_of_nil in Hin.
  - rewrite fmap_cons, list_to_map_cons, lookup_insert. cbn [fst snd]. destruct (decide (x = p)) as [-> | Hne].
    + by rewrite decide_True by apply list_elem_of_here.
    + rewrite IH. destruct (decide (p ∈ ids)) as [Hin | Hin].
      * by rewrite decide_True by (by apply list_elem_of_further).
      * rewrite decide_False; [done |].
        rewrite elem_of_cons. intros [E | E]; [by subst | done].
Qed.

Lemma intOn_zeroObject ids : intOn ids (zeroObject ids) (λ _, 0).
Proof. intros p Hp. rewrite lookup_zeroObject. by rewrite decide_True. Qed.

Lemma intOn_ext ids o f f' :
  (∀ p, p ∈ ids → f p = f' p) → intOn ids o f → intOn ids o f'.
Proof. intros E H p Hp. rewrite <- E by done. by apply H. Qed.

Lemma intOn_addTo ids o f k z :
  intOn ids o f → intOn ids (addTo o k z) (λ p, f p + share [k] z p).
Proof.
  intros H p Hp. unfold addTo, share, readNum.
  rewrite lookup_insert. destruct (decide (k = p)) as [-> | Hne].
  - rewrite (H p Hp). simpl.
    by rewrite decide_True by apply list_elem_of_here.
  - rewrite (H p Hp). rewrite decide_False.
    + by rewrite Z.add_0_r.
    + rewrite list_elem_of_singleton. naive_solver.
Qed.

Lemma sumZ_app f l1 l2 : sumZ f (l1 ++ l2) = sumZ f l1 + sumZ f l2.
Proof. unfold sumZ. induction l1 as [| x l1 IH]; simpl; lia. Qed.

Lemma sumZ_perm f l1 l2 : l1 ≡ₚ l2 → sumZ f l1 = sumZ f l2.
Proof. unfold sumZ. induction 1; simpl; lia. Qed.

Lemma sumZ_ext f f' l : (∀ p, p ∈ l → f p = f' p) → sumZ f l = sumZ f' l.
Proof.
  unfold sumZ. induction l as [| x l IH]; intros E; simpl; [done |].
  rewrite E by apply list_elem_of_here.
  rewrite IH; [done |]. intros p Hp. apply E. by apply list_elem_of_further.
Qed.

Lemma sumZ_const c l : sumZ (λ _, c) l = c * Z.of_nat (length l).
Proof. unfold sumZ. induction l as [| x l IH]; simpl length; simpl foldr; lia. Qed.

Lemma sumZ_plus f f' l : sumZ (λ p, f p + f' p) l = sumZ f l + sumZ f' l.
Proof. unfold sumZ. induction l as [| x l IH]; simpl; lia. Qed.

Lemma sumOver_intOn ids o f l :
  l ⊆ ids → intOn ids o f → sumOver o l = Int (sumZ f l).
Proof.
  intros Hsub H. unfold sumOver, sumZ.
  induction l as [| x l IH]; simpl; [done |].
  rewrite IH by set_solver. unfold readNum. rewrite (H x) by set_solver.
  reflexivity.
Qed.

(** What is paid on a hole with sides [W] and [L] adds up to nothing. *)
Lemma sumZ_sides W L ids dW dL :
  W ++ L ≡ₚ ids → NoDup ids →
  sumZ (λ p, share W dW p + share L dL p) ids
  = dW * Z.of_nat (length W) + dL * Z.of_nat (length L).
Proof.
  intros HP Hnd. rewrite <- (sumZ_perm _ _ _ HP), sumZ_app.
  rewrite <- HP in Hnd. apply NoDup_app in Hnd as (_ & Hdisj & _).
  rewrite (sumZ_ext _ (λ _, dW) W).
  2:{ intros p Hp. unfold share.
      destruct (decide (p ∈ W)), (decide (p ∈ L)); try lia; try done.
      by destruct (Hdisj p). }
  rewrite (sumZ_ext _ (λ _, dL) L).
  2:{ intros p Hp. unfold share.
      destruct (decide (p ∈ W)), (decide (p ∈ L)); try lia; try done.
      by destruct (Hdisj p). }
  by rewrite !sumZ_const.
Qed.

Lemma share_zero l p : share l 0 p = 0.
Proof. unfold share. by case_decide. Qed.

Lemma share_nil d p : share [] d p = 0.
Proof. unfold share. case_decide as H; [by apply not_elem_of_nil in H | done]. Qed.

Lemma share_cons x l d p :
  x ∉ l → share (x :: l) d p = share [x] d p + share l d p.
Proof.
  intros Hx. unfold share.
  destruct (decide (p ∈ x :: l)) as [H | H], (decide (p ∈ [x])) as [H1 | H1],
    (decide (p ∈ l)) as [H2 | H2]; try lia; exfalso.
  - apply list_elem_of_singleton in H1 as ->. done.
  - apply elem_of_cons in H as [-> | ?]; [| done].
    apply H1, list_elem_of_here.
  - apply list_elem_of_singleton in H1 as ->. apply H, list_elem_of_here.
  - apply list_elem_of_singleton in H1 as ->. apply H, list_elem_of_here.
  - by apply H, list_elem_of_further.
Qed.

(** ** What [applyDelta] does to integer-valued objects *)

Section Tracking.
Context (ids : list string).

Lemma tracks_ext acc ft fw fl fd ft' fw' fl' fd' :
  (∀ p, p ∈ ids → ft p = ft' p) → (∀ p, p ∈ ids → fw p = fw' p) →
  (∀ p, p ∈ ids → fl p = fl' p) → (∀ p, p ∈ ids → fd p = fd' p) →
  tracks ids acc ft fw fl fd → tracks ids acc ft' fw' fl' fd'.
Proof.
  intros E1 E2 E3 E4 (H1 & H2 & H3 & H4).
  repeat split; eapply intOn_ext; eauto.
Qed.

Lemma applyDelta_frame acc pid d :
  st_perHole (applyDelta acc pid d).1 = st_perHole acc.1
  ∧ carryPerPlayer (applyDelta acc pid d).1 = carryPerPlayer acc.1.
Proof. destruct acc as [st delta]. unfold applyDelta. by destruct (d =? 0). Qed.

Lemma applyAll_frame l acc d :
  st_perHole (applyAll acc l d).1 = st_perHole acc.1
  ∧ carryPerPlayer (applyAll acc l d).1 = carryPerPlayer acc.1.
Proof.
  unfold applyAll. revert acc. induction l as [| x l IH]; intros acc; [done |].
  simpl. destruct (IH (applyDelta acc x d)) as [-> ->]. apply applyDelta_frame.
Qed.

Lemma applyDelta_tracks acc pid d ft fw fl fd :
  tracks ids acc ft fw fl fd →
  tracks ids (applyDelta acc pid d)
    (λ p, ft p + share [pid] d p)
    (λ p, fw p + share [pid] (Z.max d 0) p)
    (λ p, fl p + share [pid] (Z.max (- d) 0) p)
    (λ p, fd p + share [pid] d p).
Proof.
  intros (H1 & H2 & H3 & H4). destruct acc as [st delta].
  unfold applyDelta. destruct (Z.eqb_spec d 0) as [-> | Hd].
  - repeat split; simpl in *;
      (eapply intOn_ext; [| eassumption]); intros p _;
      change (Z.max (- 0) 0) with 0; change (Z.max 0 0) with 0;
      rewrite share_zero; lia.
  - repeat split; simpl in *.
    + by apply intOn_addTo.
    + destruct (Z.ltb_spec 0 d).
      * replace (Z.max d 0) with d by lia. by apply intOn_addTo.
      * replace (Z.max d 0) with 0 by lia.
        eapply intOn_ext; [| eassumption]. intros p _. rewrite share_zero. lia.
    + destruct (Z.ltb_spec d 0).
      * replace (Z.max (- d) 0) with (Z.abs d) by lia. by apply intOn_addTo.
      * replace (Z.max (- d) 0) with 0 by lia.
        eapply intOn_ext; [| eassumption]. intros p _. rewrite share_zero. lia.
    + intros p Hp. unfold share. rewrite lookup_insert.
      destruct (decide (pid = p)) as [-> | Hne].
      * rewrite (H4 p Hp). simpl.
        by rewrite decide_True by apply list_elem_of_here.
      * rewrite (H4 p Hp). rewrite decide_False.
        -- by rewrite Z.add_0_r.
        -- rewrite list_elem_of_singleton. intros ->. done.
Qed.

Lemma applyAll_tracks l : ∀ acc d ft fw fl fd,
  NoDup l → tracks ids acc ft fw fl fd →
  tracks ids (applyAll acc l d)
    (λ p, ft p + share l d p)
    (λ p, fw p + share l (Z.max d 0) p)
    (λ p, fl p + share l (Z.max (- d) 0) p)
    (λ p, fd p + share l d p).
Proof.
  induction l as [| x l IH]; intros acc d ft fw fl fd Hnd H.
  - eapply tracks_ext; [.. | exact H]; intros p _; rewrite share_nil; lia.
  - apply NoDup_cons in Hnd as [Hx Hnd].
    change (applyAll acc (x :: l) d) with (applyAll (applyDelta acc x d) l d).
    pose proof (applyDelta_tracks acc x d _ _ _ _ H) as H'.
    pose proof (IH _ d _ _ _ _ Hnd H') as H''.
    eapply tracks_ext; [.. | exact H''];
      intros p _; cbv beta; rewrite (share_cons x l) by done; lia.
Qed.

End Tracking.

(** ** The two sides of a hole *)

Lemma filter_partition (s l : list string) :
  NoDup l → NoDup s → s ⊆ l → s ++ filter (λ x, x ∉ s) l ≡ₚ l.
Proof.
  intros Hl Hs Hsub. apply NoDup_Permutation; [| done |].
  - apply NoDup_app. split; [done |]. split; [| by apply NoDup_filter].
    intros x Hx Hf. apply list_elem_of_filter in Hf as [Hns _]. done.
  - intros x. rewrite elem_of_app, list_elem_of_filter. split.
    + intros [Hx | [_ Hx]]; [by apply Hsub | done].
    + intros Hx. destruct (decide (x ∈ s)); [by left | by right].
Qed.

Lemma invalidPartner_false partner wolfId :
  invalidPartner partner wolfId = false →
  ∃ p, partner = Some p ∧ p ≠ ""%string ∧ Some p ≠ wolfId.
Proof.
  unfold invalidPartner. destruct partner as [p |]; [| done].
  intros H. apply orb_false_iff in H as [H1 H2].
  apply bool_decide_eq_false in H1, H2. by exists p.
Qed.

Section Sides.
Context (g : Game) (i : nat).
Hypothesis Hnd : NoDup (playerIds g).
Hypothesis Hne : players g ≠ [].

Local Abbreviation order := (rotatedOrderForHole g i).

Lemma roster_pos : (0 < length (players g))%nat.
Proof. destruct (players g); [done | simpl; lia]. Qed.

Lemma order_facts :
  ∃ w, wolfIdOf order = Some w ∧ order = othersOf order ++ [w]
       ∧ w ∈ playerIds g ∧ NoDup order.
Proof.
  destruct (wolfId_is_player g i roster_pos) as (w & Hw & Hin).
  exists w. split; [done |]. split; [by apply rotatedOrder_snoc |].
  split; [done |]. by rewrite rotatedOrder_perm.
Qed.

(** The two sides never share a player, with or without a known partner. *)
Lemma sides_NoDup h wolfWon W L label :
  sides order h wolfWon = Some (W, L, label) → NoDup (W ++ L).
Proof.
  destruct order_facts as (w & Hw & Hsnoc & Hin & Hndo).
  unfold sides. rewrite Hw. simpl propertyKey.
  destruct (loneWolf h) eqn:Hlone.
  - intros [= <- <- _]. destruct wolfWon.
    + rewrite (Permutation_app_comm [w]). by rewrite <- Hsnoc.
    + by rewrite <- Hsnoc.
  - destruct (invalidPartner (partnerId h) (Some w)) eqn:Hinv; [done |].
    apply invalidPartner_false in Hinv as (p & Hp & _ & Hpw).
    rewrite Hp. simpl propertyKey. intros [= <- <- _].
    assert (Hnd2 : NoDup ([w; p] ++ filter (λ pid, pid ∉ [w; p]) order)).
    { apply NoDup_app. split_and!.
      - apply NoDup_cons. split; [| apply NoDup_singleton].
        rewrite list_elem_of_singleton. intros ->. done.
      - intros x Hx Hf. apply list_elem_of_filter in Hf as [Hns _]. done.
      - by apply NoDup_filter. }
    destruct wolfWon; [done |].
    by rewrite Permutation_app_comm.
Qed.

Lemma sides_partition h wolfWon W L label :
  partnerKnown g h →
  sides order h wolfWon = Some (W, L, label) →
  W ++ L ≡ₚ playerIds g.
Proof.
  intros Hpk. destruct order_facts as (w & Hw & Hsnoc & Hin & Hndo).
  unfold sides. rewrite Hw. simpl propertyKey.
  destruct (loneWolf h) eqn:Hlone.
  - intros [= <- <- _]. rewrite <- (rotatedOrder_perm g i).
    destruct wolfWon.
    + rewrite Hsnoc at 2. apply Permutation_app_comm.
    + by rewrite <- Hsnoc.
  - destruct (invalidPartner (partnerId h) (Some w)) eqn:Hinv; [done |].
    apply invalidPartner_false in Hinv as (p & Hp & _ & Hpw).
    rewrite Hp. simpl propertyKey. intros [= <- <- _].
    assert (HP : [w; p] ++ filter (λ pid, pid ∉ [w; p]) order ≡ₚ order).
    { apply filter_partition; [done | |].
      - apply NoDup_cons. split; [| apply NoDup_singleton].
        rewrite list_elem_of_singleton. intros ->. done.
      - intros x Hx. rewrite rotatedOrder_perm.
        apply elem_of_cons in Hx as [-> | Hx]; [done |].
        apply list_elem_of_singleton in Hx as ->. by apply Hpk. }
    rewrite <- (rotatedOrder_perm g i).
    destruct wolfWon; [done |].
    etrans; [apply Permutation_app_comm | done].
Qed.

End Sides.

(** ** One iteration of the loop, case by case *)

Section Step.
Context (g : Game) (st : State) (i : nat).

Local Abbreviation h := (holeAt g i).
Local Abbreviation order := (rotatedOrderForHole g i).
Local Abbreviation ids := (playerIds g).

Lemma scoreHole_null :
  result h = None → scoreHole g st i = pushEntry st (notScoredEntry g i).
Proof. intros H. unfold scoreHole. by rewrite H. Qed.

Lemma scoreHole_tie :
  result h = Some TIE →
  scoreHole g st i
  = pushEntry (if pushTies (options g) then setCarry st (carryPerPlayer st + 1) else st)
      (tieEntry g i).
Proof. intros H. unfold scoreHole. by rewrite H. Qed.

Lemma scoreHole_invalid :
  decisive h → sides order h (wolfWonOn h) = None →
  scoreHole g st i
  = pushEntry (if pushTies (options g) then setCarry st 0 else st)
      (notScoredEntry g i).
Proof.
  unfold wolfWonOn. intros [H | H] Hs; unfold scoreHole; rewrite H in *.
  - rewrite bool_decide_true in * by done. by rewrite Hs.
  - rewrite bool_decide_false in * by done. by rewrite Hs.
Qed.

Lemma scoreHole_decisive W L label :
  decisive h → sides order h (wolfWonOn h) = Some (W, L, label) →
  let wagerUnits := wagerPerPlayer g (carryPerPlayer st) h * POINTS_UNIT in
  let st1 := if pushTies (options g) then setCarry st 0 else st in
  let acc := applyAll
               (applyAll (st1, zeroObject ids) W (wagerUnits * Z.of_nat (length L)))
               L (- wagerUnits * Z.of_nat (length W)) in
  scoreHole g st i
  = pushEntry acc.1
      {| hole := i + 1;
         status := if wolfWonOn h then WOLF_WIN else OTHER_WIN;
         statusLabel := label;
         deltaByPlayer := acc.2 |}.
Proof.
  unfold wolfWonOn. intros [H | H] Hs; unfold scoreHole; rewrite H in *.
  - rewrite bool_decide_true in * by done. by rewrite Hs.
  - rewrite bool_decide_false in * by done. by rewrite Hs.
Qed.

(** Every iteration pushes exactly one entry, numbered [i + 1]. *)
Lemma scoreHole_pushes :
  ∃ e, st_perHole (scoreHole g st i) = st_perHole st ++ [e] ∧ hole e = (i + 1)%nat.
Proof.
  destruct (result h) as [[| |] |] eqn:Hr.
  1, 2: assert (Hd : decisive h) by (unfold decisive; rewrite Hr; auto);
    destruct (sides order h (wolfWonOn h)) as [[[W L] label] |] eqn:Hs;
    [ rewrite (scoreHole_decisive W L label Hd Hs); cbv zeta;
      eexists; split;
      [ simpl; rewrite !(proj1 (applyAll_frame _ _ _)); simpl;
        by replace (st_perHole (if pushTies (options g) then setCarry st 0 else st))
          with (st_perHole st) by (by destruct (pushTies _))
      | reflexivity ]
    | rewrite (scoreHole_invalid Hd Hs);
      eexists; split;
      [ simpl;
        by replace (st_perHole (if pushTies (options g) then setCarry st 0 else st))
          with (st_perHole st) by (by destruct (pushTies _))
      | reflexivity ] ].
  - rewrite (scoreHole_tie Hr). exists (tieEntry g i). split; [| done].
    simpl. by destruct (pushTies _).
  - rewrite (scoreHole_null Hr). by eexists.
Qed.

End Step.

(** ** The loop *)

Lemma loop_S g k : loop g (S k) = scoreHole g (loop g k) k.
Proof. unfold loop. by rewrite seq_S, fold_left_app. Qed.

Lemma length_perHole_loop g k : length (st_perHole (loop g k)) = k.
Proof.
  induction k as [| k IH]; [done |].
  rewrite loop_S. destruct (scoreHole_pushes g (loop g k) k) as (e & -> & _).
  rewrite length_app, IH. simpl. lia.
Qed.

Lemma perHole_prefix g k n :
  (k ≤ n)%nat → ∃ rest, st_perHole (loop g n) = st_perHole (loop g k) ++ rest.
Proof.
  induction 1 as [| n Hle (rest & IH)].
  - exists []. by rewrite app_nil_r.
  - rewrite loop_S. destruct (scoreHole_pushes g (loop g n) n) as (e & -> & _).
    exists (rest ++ [e]). by rewrite IH, app_assoc.
Qed.

(** The entry of hole [i] in the final breakdown is the one pushed by
    iteration [i]. *)
Lemma perHole_lookup_step g n i e :
  (i < n)%nat →
  st_perHole (scoreHole g (loop g i) i) = st_perHole (loop g i) ++ [e] →
  st_perHole (loop g n) !! i = Some e.
Proof.
  intros Hi He.
  destruct (perHole_prefix g (S i) n ltac:(lia)) as (rest & ->).
  rewrite loop_S, He, <- app_assoc.
  change ([e] ++ rest) with (e :: rest).
  rewrite list_lookup_middle; [done |]. by rewrite length_perHole_loop.
Qed.

Lemma length_perHole g : length (perHole (computeScores g)) = holeCount g.
Proof. apply length_perHole_loop. Qed.

(** ** Settlement of a decisive hole *)

Section Settle.
Context (g : Game) (st : State) (i : nat).
Context (ft fw fl : string → Z).

Local Abbreviation h := (holeAt g i).
Local Abbreviation order := (rotatedOrderForHole g i).
Local Abbreviation ids := (playerIds g).

Hypothesis Hnd : NoDup ids.
Hypothesis Hne : players g ≠ [].
Hypothesis Ht : intOn ids (st_totals st) ft.
Hypothesis Hw : intOn ids (st_won st) fw.
Hypothesis Hl : intOn ids (st_lost st) fl.

Lemma scoreHole_settles W L label :
  decisive h → sides order h (wolfWonOn h) = Some (W, L, label) →
  ∃ e, st_perHole (scoreHole g st i) = st_perHole st ++ [e]
       ∧ status e = (if wolfWonOn h then WOLF_WIN else OTHER_WIN)
       ∧ intOn ids (deltaByPlayer e) (transfer g st i W L)
       ∧ intOn ids (st_totals (scoreHole g st i)) (λ p, ft p + transfer g st i W L p)
       ∧ intOn ids (st_won (scoreHole g st i)) (λ p, fw p + Z.max (transfer g st i W L p) 0)
       ∧ intOn ids (st_lost (scoreHole g st i)) (λ p, fl p + Z.max (- transfer g st i W L p) 0).
Proof.
  intros Hd Hs. rewrite (scoreHole_decisive g st i W L label Hd Hs). cbv zeta.
  pose proof (sides_NoDup g i Hnd Hne h _ W L label Hs) as HndWL.
  apply NoDup_app in HndWL as (HndW & Hdisj & HndL).
  set (st1 := if pushTies (options g) then setCarry st 0 else st).
  set (wu := wagerPerPlayer g (carryPerPlayer st) h * POINTS_UNIT).
  set (dW := wu * Z.of_nat (length L)).
  set (dL := - wu * Z.of_nat (length W)).
  assert (H0 : tracks ids (st1, zeroObject ids) ft fw fl (λ _, 0)).
  { unfold tracks, st1. split_and!; try apply intOn_zeroObject;
      by destruct (pushTies (options g)). }
  pose proof (applyAll_tracks ids W _ dW _ _ _ _ HndW H0) as H1.
  pose proof (applyAll_tracks ids L _ dL _ _ _ _ HndL H1) as H2.
  set (acc := applyAll (applyAll (st1, zeroObject ids) W dW) L dL) in *.
  destruct H2 as (T & Wn & Ls & D).
  assert (Hsh : ∀ p d d', share W d p + share L d' p
           = if decide (p ∈ W) then d else if decide (p ∈ L) then d' else 0).
  { intros p d d'. unfold share.
    destruct (decide (p ∈ W)) as [HpW |], (decide (p ∈ L)) as [HpL |]; try lia.
    by destruct (Hdisj p). }
  eexists. split.
  { simpl. unfold acc. rewrite !(proj1 (applyAll_frame _ _ _)). simpl.
    by replace (st_perHole st1) with (st_perHole st)
      by (unfold st1; by destruct (pushTies _)). }
  split; [reflexivity | split_and!].
  - simpl. eapply intOn_ext; [| exact D].
    intros p _. unfold transfer. fold wu dW dL. lia.
  - simpl. eapply intOn_ext; [| exact T].
    intros p _. unfold transfer. fold wu dW dL. lia.
  - simpl. eapply intOn_ext; [| exact Wn].
    intros p _. unfold transfer. fold wu dW dL. cbv beta.
    rewrite <- Z.add_assoc, !Hsh. repeat case_decide; lia.
  - simpl. eapply intOn_ext; [| exact Ls].
    intros p _. unfold transfer. fold wu dW dL. cbv beta.
    rewrite <- Z.add_assoc, !Hsh. repeat case_decide; lia.
Qed.

End Settle.

(** The per-hole map does not depend on the running totals. *)
Lemma applyDelta_snd st st' delta pid d :
  (applyDelta (st, delta) pid d).2 = (applyDelta (st', delta) pid d).2.
Proof. unfold applyDelta. by destruct (d =? 0). Qed.

Lemma applyAll_snd l : ∀ st st' delta d,
  (applyAll (st, delta) l d).2 = (applyAll (st', delta) l d).2.
Proof.
  induction l as [| x l IH]; intros st st' delta d; [done |].
  change (applyAll (st, delta) (x :: l) d)
    with (applyAll (applyDelta (st, delta) x d) l d).
  change (applyAll (st', delta) (x :: l) d)
    with (applyAll (applyDelta (st', delta) x d) l d).
  pose proof (applyDelta_snd st st' delta x d) as E.
  destruct (applyDelta (st, delta) x d) as [s1 d1].
  destruct (applyDelta (st', delta) x d) as [s2 d2].
  simpl in E. subst d2. apply IH.
Qed.

Lemma perHole_if st (b : bool) c :
  st_perHole (if b then setCarry st c else st) = st_perHole st.
Proof. by destruct b. Qed.

Lemma scoreHole_entry_blank g st i e :
  st_perHole (scoreHole g (blank g st) i) = st_perHole (blank g st) ++ [e] →
  st_perHole (scoreHole g st i) = st_perHole st ++ [e].
Proof.
  assert (Hinj : ∀ (l : list Entry) a b, l ++ [a] = l ++ [b] → a = b).
  { intros l a b E. apply app_inv_head in E. by injection E. }
  destruct (result (holeAt g i)) as [r |] eqn:Hr.
  2:{ rewrite !(scoreHole_null g _ i Hr). simpl. intros E.
      by rewrite (Hinj _ _ _ E). }
  destruct (decide (r = TIE)) as [-> | Hnt].
  { rewrite !(scoreHole_tie g _ i Hr). simpl. rewrite !perHole_if. simpl.
    intros E. by rewrite (Hinj _ _ _ E). }
  assert (Hd : decisive (holeAt g i)).
  { unfold decisive. rewrite Hr. destruct r; auto. done. }
  destruct (sides (rotatedOrderForHole g i) (holeAt g i) (wolfWonOn (holeAt g i)))
    as [[[W L] label] |] eqn:Hs.
  2:{ rewrite !(scoreHole_invalid g _ i Hd Hs). simpl. rewrite !perHole_if. simpl.
      intros E. by rewrite (Hinj _ _ _ E). }
  rewrite !(scoreHole_decisive g _ i W L label Hd Hs). cbv zeta. simpl.
  rewrite !(proj1 (applyAll_frame _ _ _)). simpl. rewrite !perHole_if. simpl.
  intros E. rewrite <- (Hinj _ _ _ E). do 3 f_equal.
  match goal with
  | |- (applyAll ?a L ?d).2 = (applyAll ?b L ?d).2 =>
      assert (E1 : a.2 = b.2) by apply applyAll_snd;
      destruct a as [s1 d1], b as [s2 d2]; simpl in E1; subst d2;
      apply applyAll_snd
  end.
Qed.

Lemma sides_lone order h b :
  loneWolf h = true →
  sides order h b
  = Some (if b then [propertyKey (wolfIdOf order)] else othersOf order,
          if b then othersOf order else [propertyKey (wolfIdOf order)],
          if b then "Lone Wolf wins" else "Little Piggie win")%string.
Proof. intros H. unfold sides. by rewrite H. Qed.

Lemma sides_valid order h b :
  loneWolf h = true ∨ invalidPartner (partnerId h) (wolfIdOf order) = false →
  ∃ W L label, sides order h b = Some (W, L, label).
Proof.
  intros [H | H].
  - rewrite sides_lone by done. eauto.
  - unfold sides. rewrite H. destruct (loneWolf h); eauto.
Qed.

(** Settlement of hole [i], for any previous history of the game. *)
Lemma hole_settlement (g : Game) (i : nat) :
  NoDup (playerIds g) → players g ≠ [] → (i < holeCount g)%nat →
  decisive (holeAt g i) →
  partnerKnown g (holeAt g i) →
  (loneWolf (holeAt g i) = true
   ∨ invalidPartner (partnerId (holeAt g i))
       (wolfIdOf (rotatedOrderForHole g i)) = false) →
  let h := holeAt g i in
  let order := rotatedOrderForHole g i in
  let wager := wagerPerPlayer g (carryPerPlayer (loop g i)) h in
  ∃ W L label e,
    sides order h (wolfWonOn h) = Some (W, L, label)
    ∧ perHole (computeScores g) !! i = Some e
    ∧ status e = (if wolfWonOn h then WOLF_WIN else OTHER_WIN)
    ∧ W ++ L ≡ₚ playerIds g
    ∧ (∀ p, p ∈ W →
         deltaByPlayer e !! p = Some (Int (wager * Z.of_nat (length L))))
    ∧ (∀ p, p ∈ L →
         deltaByPlayer e !! p = Some (Int (- (wager * Z.of_nat (length W))))).
Proof.
  intros Hnd Hne Hi Hd Hpk Hvalid h order wager.
  destruct (sides_valid order h (wolfWonOn h) Hvalid) as (W & L & label & Hs).
  pose proof (sides_partition g i Hnd Hne h _ W L label Hpk Hs) as HP.
  destruct (scoreHole_settles g (blank g (loop g i)) i (λ _, 0) (λ _, 0) (λ _, 0)
              Hnd Hne (intOn_zeroObject _) (intOn_zeroObject _)
              (intOn_zeroObject _) W L label Hd Hs)
    as (e & He & Hst & HD & _).
  apply scoreHole_entry_blank in He.
  pose proof (perHole_lookup_step g (holeCount g) i e Hi He) as Hlook.
  assert (HndWL : NoDup (W ++ L)) by (by rewrite HP).
  apply NoDup_app in HndWL as (HndW & Hdisj & HndL).
  exists W, L, label, e. split_and!; try done.
  - intros p Hp. rewrite (HD p) by (rewrite <- HP, elem_of_app; by left).
    unfold transfer, share, POINTS_UNIT. simpl carryPerPlayer. fold h wager.
    rewrite decide_True by done.
    rewrite decide_False by (by apply Hdisj). do 2 f_equal. lia.
  - intros p Hp. rewrite (HD p) by (rewrite <- HP, elem_of_app; by right).
    unfold transfer, share, POINTS_UNIT. simpl carryPerPlayer. fold h wager.
    rewrite decide_False by (intros HpW; by apply (Hdisj p)).
    rewrite decide_True by done. do 2 f_equal. lia.
Qed.

(** C1.  On a decisive hole with a valid configuration (lone wolf, or a
    partner who is a player other than the role-holder), the winners and
    the losers computed by the engine partition the roster, every winner's
    delta for the hole is [wager × number of losers] and every loser's is
    [−(wager × number of winners)].  In particular, with four players, a
    lone wolf, wager 1 and the field winning, the role-holder gets −3 and
    each of the three others +1. *)
Theorem decisive_round_settlement (g : Game) (i : nat) :
  NoDup (playerIds g) → players g ≠ [] → (i < holeCount g)%nat →
  decisive (holeAt g i) →
  partnerKnown g (holeAt g i) →
  (loneWolf (holeAt g i) = true
   ∨ invalidPartner (partnerId (holeAt g i))
       (wolfIdOf (rotatedOrderForHole g i)) = false) →
  let h := holeAt g i in
  let order := rotatedOrderForHole g i in
  let wager := wagerPerPlayer g (carryPerPlayer (loop g i)) h in
  ∃ W L label e,
    sides order h (wolfWonOn h) = Some (W, L, label)
    ∧ perHole (computeScores g) !! i = Some e
    ∧ W ++ L ≡ₚ playerIds g
    ∧ (∀ p, p ∈ W →
         deltaByPlayer e !! p = Some (Int (wager * Z.of_nat (length L))))
    ∧ (∀ p, p ∈ L →
         deltaByPlayer e !! p = Some (Int (- (wager * Z.of_nat (length W)))))
    ∧ (length (players g) = 4%nat → loneWolf h = true →
       result h = Some OTHER → wager = 1 →
       ∃ w, wolfIdOf order = Some w ∧ W = othersOf order ∧ L = [w]
            ∧ deltaByPlayer e !! w = Some (Int (-3))
            ∧ ∀ p, p ∈ othersOf order → deltaByPlayer e !! p = Some (Int 1)).
Proof.
  intros Hnd Hne Hi Hd Hpk Hvalid h order wager.
  destruct (hole_settlement g i Hnd Hne Hi Hd Hpk Hvalid)
    as (W & L & label & e & Hs & Hlook & _ & HP & HW & HL).
  fold h order wager in Hs, HW, HL.
  exists W, L, label, e. split_and!; try done.
  intros H4 Hlone Hres Hwager.
  destruct (order_facts g i Hnd Hne) as (w & Hw & Hsnoc & _ & _).
  fold order in Hw, Hsnoc.
  assert (Hlen : length (othersOf order) = 3%nat).
  { pose proof (length_rotatedOrder g i) as Hlo. fold order in Hlo.
    rewrite Hsnoc, length_app in Hlo. simpl in Hlo. lia. }
  rewrite (sides_lone order h _ Hlone) in Hs.
  unfold wolfWonOn in Hs. rewrite bool_decide_false in Hs by (by rewrite Hres).
  rewrite Hw in Hs. simpl in Hs. injection Hs as <- <- _.
  exists w. split_and!; try done.
  - rewrite HL by apply list_elem_of_here. rewrite Hwager, Hlen. done.
  - intros p Hp. rewrite HW by done. by rewrite Hwager.
Qed.

Lemma decisive_round_settlement_witness :
  ∃ e, perHole (computeScores game1) !! 0%nat = Some e
       ∧ deltaByPlayer e !! "p4"%string = Some (Int (-3))
       ∧ deltaByPlayer e !! "p1"%string = Some (Int 1).
Proof.
  assert (H1 : NoDup (playerIds game1)) by (apply (bool_decide_unpack _); vm_compute; exact I).
  assert (H2 : players game1 ≠ []) by done.
  assert (H3 : (0 < holeCount game1)%nat) by (simpl; lia).
  assert (H4 : decisive (holeAt game1 0)) by (right; reflexivity).
  assert (H5 : partnerKnown game1 (holeAt game1 0)) by (intros H; discriminate H).
  assert (H6 : loneWolf (holeAt game1 0) = true
               ∨ invalidPartner (partnerId (holeAt game1 0))
                   (wolfIdOf (rotatedOrderForHole game1 0)) = false)
    by (left; reflexivity).
  destruct (decisive_round_settlement game1 0 H1 H2 H3 H4 H5 H6)
    as (W & L & label & e & _ & He & _ & _ & _ & Hfour).
  destruct (Hfour eq_refl eq_refl eq_refl eq_refl) as (w & Hw & _ & _ & Hd & Ho).
  exists e. split; [exact He |].
  injection Hw as <-. split; [exact Hd |].
  apply Ho. vm_compute. apply list_elem_of_here.
Defined.

(** ** Well-formed games and the loop invariant *)

Lemma partnerKnown_holeAt g i : wellFormed g → partnerKnown g (holeAt g i).
Proof.
  intros [_ HF]. unfold holeAt.
  destruct (holes g !! i) as [h |] eqn:Hh; simpl.
  - rewrite Forall_forall in HF. apply HF. by eapply list_elem_of_lookup_2.
  - intros _ p. discriminate.
Qed.

Lemma sumEntries_snoc f es e p :
  sumEntries f (es ++ [e]) p = sumEntries f es p + f (deltaOf e p).
Proof. unfold sumEntries. induction es as [| x es IH]; simpl; lia. Qed.

Lemma netSum_won_lost es p : netSum es p = wonSum es p - lostSum es p.
Proof.
  unfold netSum, wonSum, lostSum, sumEntries.
  induction es as [| x es IH]; simpl; lia.
Qed.

Lemma wonSum_nonneg es p : 0 ≤ wonSum es p.
Proof. unfold wonSum, sumEntries. induction es as [| x es IH]; simpl; lia. Qed.

Lemma lostSum_nonneg es p : 0 ≤ lostSum es p.
Proof. unfold lostSum, sumEntries. induction es as [| x es IH]; simpl; lia. Qed.

Lemma deltaOf_intOn ids e f p : intOn ids (deltaByPlayer e) f → p ∈ ids → deltaOf e p = f p.
Proof. intros H Hp. unfold deltaOf. by rewrite (H p Hp). Qed.

Lemma Inv_initial g : Inv g (initialState g).
Proof. split; simpl; try apply intOn_zeroObject. apply Forall_nil_2. Qed.

Lemma balanced_zero g e :
  deltaByPlayer e = zeroObject (playerIds g) → balanced (playerIds g) e.
Proof.
  intros E. exists (λ _, 0). rewrite E. split; [apply intOn_zeroObject |].
  rewrite sumZ_const. lia.
Qed.

Lemma balanced_integral ids e : balanced ids e → integral ids e.
Proof. intros (f & Hf & _). by exists f. Qed.

(** Pushing an entry with all-zero deltas changes no sum. *)
Lemma Inv_push_zero g st st' e :
  Inv g st →
  st_totals st' = st_totals st → st_won st' = st_won st → st_lost st' = st_lost st →
  st_perHole st' = st_perHole st ++ [e] →
  deltaByPlayer e = zeroObject (playerIds g) →
  Inv g st'.
Proof.
  intros [H1 H2 H3 H4] E1 E2 E3 E4 Ez.
  assert (Hz : ∀ p, p ∈ playerIds g → deltaOf e p = 0).
  { intros p Hp. unfold deltaOf. rewrite Ez, lookup_zeroObject.
    by rewrite decide_True. }
  split; rewrite ?E1, ?E2, ?E3, E4.
  - eapply intOn_ext; [| exact H1]. intros p Hp.
    unfold netSum. rewrite sumEntries_snoc, Hz by done. lia.
  - eapply intOn_ext; [| exact H2]. intros p Hp.
    unfold wonSum. rewrite sumEntries_snoc, Hz by done. lia.
  - eapply intOn_ext; [| exact H3]. intros p Hp.
    unfold lostSum. rewrite sumEntries_snoc, Hz by done. lia.
  - apply Forall_app. split; [done |]. apply Forall_singleton.
    by apply balanced_integral, balanced_zero.
Qed.

Lemma Inv_empty g st : players g = [] → Inv g st.
Proof.
  intros E. assert (E' : playerIds g = []) by (unfold playerIds; by rewrite E).
  split; rewrite E'; try (intros p Hp; by apply not_elem_of_nil in Hp).
  apply Forall_forall. intros e _. exists (λ _, 0).
  intros p Hp. by apply not_elem_of_nil in Hp.
Qed.

(** The shape of an iteration: what it pushes, and whether the entry has
    all-zero deltas or the transfer of a settled hole. *)
Lemma scoreHole_cases g st i :
  (∃ e, scoreHole g st i
        = pushEntry (setCarry st (carryPerPlayer (scoreHole g st i))) e
        ∧ deltaByPlayer e = zeroObject (playerIds g))
  ∨ (∃ W L label, decisive (holeAt g i)
       ∧ sides (rotatedOrderForHole g i) (holeAt g i) (wolfWonOn (holeAt g i))
         = Some (W, L, label)).
Proof.
  destruct (result (holeAt g i)) as [r |] eqn:Hr.
  2:{ left. exists (notScoredEntry g i).
      rewrite (scoreHole_null g _ i Hr). by destruct st. }
  destruct (decide (r = TIE)) as [-> | Hnt].
  { left. exists (tieEntry g i). rewrite (scoreHole_tie g _ i Hr).
    split; [| done]. destruct st. simpl. by destruct (pushTies _). }
  assert (Hd : decisive (holeAt g i)).
  { unfold decisive. rewrite Hr. destruct r; auto. done. }
  destruct (sides (rotatedOrderForHole g i) (holeAt g i) (wolfWonOn (holeAt g i)))
    as [[[W L] label] |] eqn:Hs.
  - right. by exists W, L, label.
  - left. exists (notScoredEntry g i). rewrite (scoreHole_invalid g _ i Hd Hs).
    split; [| done]. destruct st. simpl. by destruct (pushTies _).
Qed.

Lemma Inv_step g st i :
  NoDup (playerIds g) → Inv g st → Inv g (scoreHole g st i).
Proof.
  intros Hnd HI.
  destruct (decide (players g = [])) as [Hemp | Hne]; [by apply Inv_empty |].
  destruct (scoreHole_cases g st i) as [(e & -> & Hz) | (W & L & label & Hd & Hs)].
  { by eapply (Inv_push_zero g st _ e). }
  destruct HI as [H1 H2 H3 H4].
  destruct (scoreHole_settles g st i _ _ _ Hnd Hne H1 H2 H3 W L label Hd Hs)
    as (e & He & _ & HD & HT & HW & HL).
  split; rewrite ?He.
  - eapply intOn_ext; [| exact HT]. intros p Hp. cbv beta.
    unfold netSum. rewrite sumEntries_snoc.
    by rewrite (deltaOf_intOn _ _ _ _ HD Hp).
  - eapply intOn_ext; [| exact HW]. intros p Hp. cbv beta.
    unfold wonSum. rewrite sumEntries_snoc.
    by rewrite (deltaOf_intOn _ _ _ _ HD Hp).
  - eapply intOn_ext; [| exact HL]. intros p Hp. cbv beta.
    unfold lostSum. rewrite sumEntries_snoc.
    by rewrite (deltaOf_intOn _ _ _ _ HD Hp).
  - apply Forall_app. split; [done |]. apply Forall_singleton.
    by eexists.
Qed.

Lemma Inv_loop g k : NoDup (playerIds g) → Inv g (loop g k).
Proof.
  intros Hnd. induction k as [| k IH]; [apply Inv_initial |].
  rewrite loop_S. by apply Inv_step.
Qed.

(** With a known partner, what an iteration pushes is balanced. *)
Lemma scoreHole_balanced g st i :
  NoDup (playerIds g) → partnerKnown g (holeAt g i) → Inv g st →
  ∃ e, st_perHole (scoreHole g st i) = st_perHole st ++ [e]
       ∧ balanced (playerIds g) e.
Proof.
  intros Hnd Hpk HI.
  destruct (scoreHole_cases g st i) as [(e & -> & Hz) | (W & L & label & Hd & Hs)].
  { exists e. split; [done | by apply balanced_zero]. }
  destruct (decide (players g = [])) as [Hemp | Hne].
  { destruct (scoreHole_pushes g st i) as (e & He & _). exists e. split; [done |].
    assert (E' : playerIds g = []) by (unfold playerIds; by rewrite Hemp).
    exists (λ _, 0). rewrite E'. split; [| done].
    intros p Hp. by apply not_elem_of_nil in Hp. }
  destruct HI as [H1 H2 H3 H4].
  destruct (scoreHole_settles g st i _ _ _ Hnd Hne H1 H2 H3 W L label Hd Hs)
    as (e & He & _ & HD & _).
  pose proof (sides_partition g i Hnd Hne _ _ W L label Hpk Hs) as HP.
  exists e. split; [done |]. eexists. split; [exact HD |].
  unfold transfer. rewrite (sumZ_sides W L _ _ _ HP Hnd). lia.
Qed.

Lemma balanced_loop g k :
  wellFormed g → Forall (balanced (playerIds g)) (st_perHole (loop g k)).
Proof.
  intros Hwf. induction k as [| k IH]; [apply Forall_nil_2 |].
  rewrite loop_S.
  destruct (scoreHole_balanced g (loop g k) k) as (e & -> & He).
  - apply Hwf.
  - by apply partnerKnown_holeAt.
  - apply Inv_loop, Hwf.
  - apply Forall_app. split; [done |]. by apply Forall_singleton.
Qed.

Lemma sumZ_netSum ids es :
  Forall (balanced ids) es → sumZ (netSum es) ids = 0.
Proof.
  induction 1 as [| e es (f & Hf & Hz) _ IH].
  - unfold netSum, sumEntries. simpl. rewrite sumZ_const. lia.
  - rewrite (sumZ_ext _ (λ p, f p + netSum es p)).
    + rewrite sumZ_plus. lia.
    + intros p Hp. unfold netSum, sumEntries. simpl.
      by rewrite (deltaOf_intOn _ _ _ _ Hf Hp).
Qed.

(** C4.  In a well-formed game (distinct player identifiers, partners that
    are players) the deltas of every entry of the breakdown, so of every
    decisive hole, add up to zero over the players, and so do the net
    totals. *)
Theorem zero_sum (g : Game) :
  wellFormed g →
  (∀ e, e ∈ perHole (computeScores g) →
     sumOver (deltaByPlayer e) (playerIds g) = Int 0)
  ∧ sumOver (totals (computeScores g)) (playerIds g) = Int 0.
Proof.
  intros Hwf.
  destruct (Inv_loop g (holeCount g) (proj1 Hwf)) as [H1 _ _ _].
  pose proof (balanced_loop g (holeCount g) Hwf) as H4. split.
  - intros e He. simpl in He. rewrite Forall_forall in H4.
    destruct (H4 e He) as (f & Hf & Hz).
    by rewrite (sumOver_intOn _ _ f _ (reflexivity _) Hf), Hz.
  - simpl. rewrite (sumOver_intOn _ _ _ _ (reflexivity _) H1).
    by rewrite sumZ_netSum.
Qed.

(** C10.  For every game with distinct player identifiers and every
    player: the engine's [won] is the sum of the player's positive deltas
    over the breakdown, [lost] is the sum of the magnitudes of the negative
    ones, both are non-negative, the net total is [won − lost], and every
    delta of the player in the breakdown is an integer. *)
Theorem net_is_won_minus_lost (g : Game) (p : string) :
  NoDup (playerIds g) → p ∈ playerIds g →
  let s := computeScores g in
  won s !! p = Some (Int (wonSum (perHole s) p))
  ∧ lost s !! p = Some (Int (lostSum (perHole s) p))
  ∧ totals s !! p = Some (Int (wonSum (perHole s) p - lostSum (perHole s) p))
  ∧ 0 ≤ wonSum (perHole s) p
  ∧ 0 ≤ lostSum (perHole s) p
  ∧ ∀ e, e ∈ perHole s → ∃ z, deltaByPlayer e !! p = Some (Int z).
Proof.
  intros Hnd Hp s. destruct (Inv_loop g (holeCount g) Hnd) as [H1 H2 H3 H4].
  subst s. simpl. split_and!.
  - by apply H2.
  - by apply H3.
  - rewrite <- netSum_won_lost. by apply H1.
  - apply wonSum_nonneg.
  - apply lostSum_nonneg.
  - intros e He. rewrite Forall_forall in H4.
    destruct (H4 e He) as (f & Hf). exists (f p). by apply Hf.
Qed.

Lemma zero_sum_witness :
  sumOver (totals (computeScores game3)) (playerIds game3) = Int 0.
Proof. apply (zero_sum game3). apply (bool_decide_unpack _). vm_compute. exact I. Defined.

Lemma net_is_won_minus_lost_witness :
  totals (computeScores game3) !! "p1"%string
  = Some (Int (wonSum (perHole (computeScores game3)) "p1"
               - lostSum (perHole (computeScores game3)) "p1")).
Proof.
  assert (H1 : NoDup (playerIds game3)) by (apply (bool_decide_unpack _); vm_compute; exact I).
  assert (H2 : "p1"%string ∈ playerIds game3) by (vm_compute; apply list_elem_of_here).
  exact (proj1 (proj2 (proj2 (net_is_won_minus_lost game3 "p1" H1 H2)))).
Defined.

(** ** The carry *)

Lemma carry_decisive g st i :
  decisive (holeAt g i) →
  carryPerPlayer (scoreHole g st i)
  = if pushTies (options g) then 0 else carryPerPlayer st.
Proof.
  intros Hd.
  destruct (sides (rotatedOrderForHole g i) (holeAt g i) (wolfWonOn (holeAt g i)))
    as [[[W L] label] |] eqn:Hs.
  - rewrite (scoreHole_decisive g st i W L label Hd Hs). cbv zeta. simpl.
    rewrite !(proj2 (applyAll_frame _ _ _)). simpl. by destruct (pushTies _).
  - rewrite (scoreHole_invalid g st i Hd Hs). simpl. by destruct (pushTies _).
Qed.

Lemma wager_unfold g c h :
  wagerPerPlayer g c h
  = (if pushTies (options g) then c else 0) + 1
    + (if blindWolf (options g) && blind h then 1 else 0).
Proof. unfold wagerPerPlayer, baseWagerPerPlayer, isBlind. lia. Qed.

(** C3.  With [pushTies] on: a tied hole adds exactly 1 to the carry whatever
    its blind flag, leaves every total alone and is entered as a tie with
    all-zero deltas; on a decisive hole the wager per player is
    [carry + 1 + (1 if blindWolf is on and the hole is blind)] and the carry
    is 0 afterwards; so with [blindWolf] off, two ties in a row that start
    from an empty carry make the wager of a decisive third hole 3, and the
    carry is 0 after it. *)
Theorem tie_carry (g : Game) :
  pushTies (options g) = true →
  (∀ i, result (holeAt g i) = Some TIE →
     carryPerPlayer (loop g (S i)) = carryPerPlayer (loop g i) + 1
     ∧ st_totals (loop g (S i)) = st_totals (loop g i)
     ∧ st_won (loop g (S i)) = st_won (loop g i)
     ∧ st_lost (loop g (S i)) = st_lost (loop g i)
     ∧ ((i < holeCount g)%nat →
        ∃ e, perHole (computeScores g) !! i = Some e ∧ status e = TIED
             ∧ deltaByPlayer e = zeroObject (playerIds g)))
  ∧ (∀ i, decisive (holeAt g i) →
       wagerPerPlayer g (carryPerPlayer (loop g i)) (holeAt g i)
       = carryPerPlayer (loop g i) + 1
         + (if blindWolf (options g) && blind (holeAt g i) then 1 else 0)
       ∧ carryPerPlayer (loop g (S i)) = 0)
  ∧ (blindWolf (options g) = false →
     ∀ i, carryPerPlayer (loop g i) = 0 →
       result (holeAt g i) = Some TIE →
       result (holeAt g (S i)) = Some TIE →
       decisive (holeAt g (S (S i))) →
       wagerPerPlayer g (carryPerPlayer (loop g (S (S i)))) (holeAt g (S (S i))) = 3
       ∧ carryPerPlayer (loop g (S (S (S i)))) = 0).
Proof.
  intros Hpush.
  assert (Htie : ∀ i, result (holeAt g i) = Some TIE →
            carryPerPlayer (loop g (S i)) = carryPerPlayer (loop g i) + 1).
  { intros i Hr. rewrite loop_S, (scoreHole_tie g _ i Hr), Hpush. done. }
  assert (Hdec : ∀ i, decisive (holeAt g i) → carryPerPlayer (loop g (S i)) = 0).
  { intros i Hd. by rewrite loop_S, (carry_decisive g _ i Hd), Hpush. }
  split_and!.
  - intros i Hr. split; [by apply Htie |].
    rewrite loop_S, (scoreHole_tie g _ i Hr), Hpush. split_and!; try done.
    intros Hi. exists (tieEntry g i). split_and!; try done.
    apply (perHole_lookup_step g (holeCount g) i _ Hi).
    by rewrite (scoreHole_tie g _ i Hr), Hpush.
  - intros i Hd. split; [| by apply Hdec].
    by rewrite wager_unfold, Hpush.
  - intros Hblind i Hc H1 H2 Hd. split; [| by apply Hdec].
    rewrite wager_unfold, Hpush, Hblind.
    rewrite (Htie (S i) H2), (Htie i H1), Hc. done.
Qed.

Lemma tie_carry_witness :
  wagerPerPlayer game4 (carryPerPlayer (loop game4 2)) (holeAt game4 2) = 3
  ∧ carryPerPlayer (loop game4 3) = 0.
Proof.
  assert (H : pushTies (options game4) = true) by reflexivity.
  destruct (tie_carry game4 H) as (_ & _ & H3).
  apply (H3 eq_refl 0%nat); [reflexivity | reflexivity | reflexivity |].
  left. reflexivity.
Defined.

(** ** Holes that are not scored *)

(** C7.  The engine is a total function that enters every hole in the
    breakdown.  A hole without a result is entered as NOT_SCORED with
    all-zero deltas and leaves the carry and the three running totals as
    they were.  A decisive team hole whose partner is missing or is the
    role-holder is entered the same way and leaves the running totals as
    they were. *)
Theorem unscored_holes (g : Game) :
  length (perHole (computeScores g)) = holeCount g
  ∧ ∀ i, (i < holeCount g)%nat →
      let h := holeAt g i in
      let unscored :=
        ∃ e, perHole (computeScores g) !! i = Some e
             ∧ status e = NOT_SCORED
             ∧ (∀ p, deltaByPlayer e !! p
                     = if decide (p ∈ playerIds g) then Some (Int 0) else None)
             ∧ st_totals (loop g (S i)) = st_totals (loop g i)
             ∧ st_won (loop g (S i)) = st_won (loop g i)
             ∧ st_lost (loop g (S i)) = st_lost (loop g i) in
      (result h = None →
         unscored ∧ carryPerPlayer (loop g (S i)) = carryPerPlayer (loop g i))
      ∧ (decisive h → loneWolf h = false →
         invalidPartner (partnerId h) (wolfIdOf (rotatedOrderForHole g i)) = true →
         unscored).
Proof.
  split; [apply length_perHole |].
  intros i Hi h unscored. subst unscored. split.
  - intros Hr. rewrite loop_S, (scoreHole_null g _ i Hr). split; [| done].
    exists (notScoredEntry g i). split_and!; try done.
    + apply (perHole_lookup_step g (holeCount g) i _ Hi).
      by rewrite (scoreHole_null g _ i Hr).
    + intros p. apply lookup_zeroObject.
  - intros Hd Hlone Hinv.
    assert (Hs : sides (rotatedOrderForHole g i) h (wolfWonOn h) = None).
    { unfold sides. by rewrite Hlone, Hinv. }
    rewrite loop_S, (scoreHole_invalid g _ i Hd Hs).
    exists (notScoredEntry g i). split_and!; try done.
    + apply (perHole_lookup_step g (holeCount g) i _ Hi).
      rewrite (scoreHole_invalid g _ i Hd Hs). simpl. by rewrite perHole_if.
    + intros p. apply lookup_zeroObject.
    + simpl. by destruct (pushTies _).
    + simpl. by destruct (pushTies _).
    + simpl. by destruct (pushTies _).
Qed.

Lemma unscored_holes_witness :
  carryPerPlayer (loop game3 4) = carryPerPlayer (loop game3 3)
  ∧ st_totals (loop game3 4) = st_totals (loop game3 3).
Proof.
  destruct (unscored_holes game3) as [_ H].
  assert (Hi : (3 < holeCount game3)%nat) by (simpl; lia).
  destruct (H 3%nat Hi) as [Hnull _].
  destruct (Hnull eq_refl) as [(e & _ & _ & _ & Ht & _) Hc].
  split; [exact Hc | exact Ht].
Defined.

(** On a decisive team hole without a usable partner the carry is cleared
    all the same: the reset comes before the partner is looked at. *)
Lemma invalid_partner_clears_carry (g : Game) (i : nat) :
  pushTies (options g) = true → decisive (holeAt g i) →
  carryPerPlayer (loop g (S i)) = 0.
Proof. intros Hp Hd. by rewrite loop_S, (carry_decisive g _ i Hd), Hp. Qed.

(** C2.  What the engine does when a tie is followed by a team hole without
    a partner and then by a lone-wolf win: the hole without a partner is
    entered as NOT_SCORED with all-zero deltas, but the carry of 1 that was
    in force before it is gone after it, and the lone wolf of the third
    hole collects 3 (wager 1) rather than 6 (wager 2). *)
Theorem invalid_partner_loses_carry :
  carryPerPlayer (loop game5 1) = 1
  ∧ perHole (computeScores game5) !! 1%nat = Some (notScoredEntry game5 1)
  ∧ carryPerPlayer (loop game5 2) = 0
  ∧ wagerPerPlayer game5 (carryPerPlayer (loop game5 2)) (holeAt game5 2) = 1
  ∧ wolfIdOf (rotatedOrderForHole game5 2) = Some "p2"%string
  ∧ (deltaByPlayer <$> perHole (computeScores game5) !! 2%nat)
      ≫= (.!! "p2"%string) = Some (Int 3).
Proof. split_and!; vm_compute; reflexivity. Qed.

(** ** Blind holes played as a team *)

(** C6.  What the engine does on a blind hole with [loneWolf] off and
    partner p1: it does not score it as the same hole played solo, the
    partner collects 4 with the wolf instead of paying 2 with the field.
    The screen of the same generation does treat such a hole as solo play:
    rendering it and saving it both rewrite it into the solo hole, so the
    stored hole is scored one way before it is shown and the other way
    after. *)
Theorem blind_team_is_not_solo :
  blind (holeAt game6 0) = true
  ∧ loneWolf (holeAt game6 0) = false
  ∧ totals (computeScores game6) !! "p1"%string = Some (Int 4)
  ∧ totals (computeScores (withHole game6 0 (asSolo (holeAt game6 0)))) !! "p1"%string
    = Some (Int (-2))
  ∧ ¬ scoredAsSolo game6 0
  ∧ enforceBlindImpliesLone (blindWolf (options game6)) (holeAt game6 0)
    = asSolo (holeAt game6 0)
  ∧ onSaveHole game6 0 (holeAt game6 0) = (asSolo (holeAt game6 0), true).
Proof.
  split_and!; try (vm_compute; reflexivity).
  unfold scoredAsSolo. intros E.
  apply (f_equal (λ o, o ≫= (.!! "p1"%string))) in E.
  vm_compute in E. discriminate E.
Qed.

Lemma sides_team order h b w p :
  loneWolf h = false → wolfIdOf order = Some w → partnerId h = Some p →
  invalidPartner (partnerId h) (wolfIdOf order) = false →
  sides order h b
  = Some (if b then [w; p] else filter (λ pid, pid ∉ [w; p]) order,
          if b then filter (λ pid, pid ∉ [w; p]) order else [w; p],
          if b then "Wolf Pack wins" else "Little Piggies win")%string.
Proof. intros Hl Hw Hp Hinv. unfold sides. by rewrite Hl, Hinv, Hw, Hp. Qed.

(** The engine never looks at the blind flag to pick the sides.  A decisive
    blind hole with [loneWolf] off and a valid partner is a team hole: the
    role-holder and the partner each get [± wager × (N − 2)], every other
    player [∓ wager × 2], and the blind flag only adds 1 to the wager when
    [blindWolf] is on. *)
Lemma blind_team_round (g : Game) (i : nat) :
  NoDup (playerIds g) → players g ≠ [] → (i < holeCount g)%nat →
  decisive (holeAt g i) →
  blind (holeAt g i) = true →
  loneWolf (holeAt g i) = false →
  partnerKnown g (holeAt g i) →
  invalidPartner (partnerId (holeAt g i)) (wolfIdOf (rotatedOrderForHole g i)) = false →
  let h := holeAt g i in
  let wager :=
    (if pushTies (options g) then carryPerPlayer (loop g i) else 0) + 1
    + (if blindWolf (options g) then 1 else 0) in
  let sign := if wolfWonOn h then 1 else -1 in
  ∃ w p e,
    wolfIdOf (rotatedOrderForHole g i) = Some w
    ∧ partnerId h = Some p ∧ p ≠ w
    ∧ perHole (computeScores g) !! i = Some e
    ∧ deltaByPlayer e !! w
      = Some (Int (sign * wager * (Z.of_nat (length (players g)) - 2)))
    ∧ deltaByPlayer e !! p
      = Some (Int (sign * wager * (Z.of_nat (length (players g)) - 2)))
    ∧ ∀ q, q ∈ playerIds g → q ≠ w → q ≠ p →
        deltaByPlayer e !! q = Some (Int (- sign * wager * 2)).
Proof.
  intros Hnd Hne Hi Hd Hblind Hlone Hpk Hinv h wager sign. subst h.
  destruct (hole_settlement g i Hnd Hne Hi Hd Hpk (or_intror Hinv))
    as (W & L & label & e & Hs & Hlook & _ & HP & HW & HL).
  destruct (order_facts g i Hnd Hne) as (w & Hw & _ & _ & _).
  destruct (invalidPartner_false _ _ Hinv) as (p & Hp & _ & Hpw).
  rewrite (sides_team _ _ _ w p Hlone Hw Hp Hinv) in Hs.
  assert (Hwager : wagerPerPlayer g (carryPerPlayer (loop g i)) (holeAt g i) = wager).
  { rewrite wager_unfold, Hblind. unfold wager. by rewrite andb_true_r. }
  rewrite Hwager in HW, HL.
  pose proof (Permutation_length HP) as Hlen.
  rewrite length_app, length_playerIds in Hlen.
  set (rest := filter (λ pid, pid ∉ [w; p]) (rotatedOrderForHole g i)) in *.
  assert (Hrest : ∀ q, q ∈ playerIds g → q ≠ w → q ≠ p → q ∈ rest).
  { intros q Hq Hqw Hqp. apply list_elem_of_filter. split.
    - rewrite elem_of_cons, list_elem_of_singleton. intros [? | ?]; done.
    - by rewrite rotatedOrder_perm. }
  assert (Hpw' : p ≠ w) by (intros ->; done).
  exists w, p, e. split_and!; try done; unfold sign;
    destruct (wolfWonOn (holeAt g i)); injection Hs as <- <- _; simpl in Hlen.
  - rewrite HW by apply list_elem_of_here. do 2 f_equal. lia.
  - rewrite HL by apply list_elem_of_here. do 2 f_equal. lia.
  - rewrite HW by (apply list_elem_of_further, list_elem_of_here). do 2 f_equal. lia.
  - rewrite HL by (apply list_elem_of_further, list_elem_of_here). do 2 f_equal. lia.
  - intros q Hq Hqw Hqp. rewrite HL by (by apply Hrest). do 2 f_equal. simpl. lia.
  - intros q Hq Hqw Hqp. rewrite HW by (by apply Hrest). do 2 f_equal. simpl. lia.
Qed.

Lemma blind_team_round_witness :
  ∃ e, perHole (computeScores game6) !! 0%nat = Some e
       ∧ deltaByPlayer e !! "p1"%string = Some (Int 4)
       ∧ deltaByPlayer e !! "p2"%string = Some (Int (-4)).
Proof.
  assert (H1 : NoDup (playerIds game6)) by (apply (bool_decide_unpack _); vm_compute; exact I).
  assert (H2 : players game6 ≠ []) by done.
  assert (H3 : (0 < holeCount game6)%nat) by (simpl; lia).
  assert (H4 : decisive (holeAt game6 0)) by (left; reflexivity).
  assert (H5 : partnerKnown game6 (holeAt game6 0))
    by (apply (bool_decide_unpack _); vm_compute; exact I).
  destruct (blind_team_round game6 0 H1 H2 H3 H4 eq_refl eq_refl H5 eq_refl)
    as (w & p & e & Hw & Hp & _ & He & _ & Hdp & Hrest).
  injection Hw as <-. injection Hp as <-.
  exists e. split; [exact He |]. split; [exact Hdp |].
  apply Hrest; [| done | done].
  vm_compute. apply list_elem_of_further, list_elem_of_here.
Defined.

(** ** Appending holes that are not played yet *)

Lemma scoreHole_congr g g' st i :
  players g' = players g → options g' = options g → holeAt g' i = holeAt g i →
  scoreHole g' st i = scoreHole g st i.
Proof.
  intros Hp Ho Hh. unfold scoreHole, rotatedOrderForHole, wagerPerPlayer,
    baseWagerPerPlayer, isBlind, playerIds.
  by rewrite Hp, Ho, Hh.
Qed.

Section Extend.
Context (g : Game) (extra : list Hole).
Hypothesis Hlen : (length (holes g) ≤ holeCount g)%nat.
Hypothesis Hnull : Forall (λ h, result h = None) extra.

Lemma extend_beyond k :
  (length (holes g) ≤ k)%nat →
  result (holeAt (extend g extra) k) = None ∧ result (holeAt g k) = None.
Proof.
  intros Hk. unfold holeAt. simpl. split.
  - rewrite lookup_app_r by done.
    destruct (extra !! (k - length (holes g))%nat) as [h |] eqn:Hh; [| done].
    simpl. rewrite Forall_forall in Hnull. apply Hnull.
    by eapply list_elem_of_lookup_2.
  - by rewrite lookup_ge_None_2.
Qed.

Lemma scoreHole_extend st k :
  scoreHole (extend g extra) st k = scoreHole g st k
  ∨ (result (holeAt (extend g extra) k) = None ∧ result (holeAt g k) = None).
Proof.
  destruct (decide (k < length (holes g))%nat) as [Hk | Hk].
  - left. apply scoreHole_congr; [done | done |].
    unfold holeAt. simpl. by rewrite lookup_app_l.
  - right. apply extend_beyond. lia.
Qed.

Lemma loop_extend k : loop (extend g extra) k = loop g k.
Proof.
  induction k as [| k IH]; [done |].
  rewrite !loop_S, IH.
  destruct (scoreHole_extend (loop g k) k) as [E | [E1 E2]]; [done |].
  by rewrite (scoreHole_null _ _ _ E1), (scoreHole_null _ _ _ E2).
Qed.

Lemma loop_extend_tail j :
  let st := loop (extend g extra) (holeCount g + j) in
  let st0 := loop (extend g extra) (holeCount g) in
  st_totals st = st_totals st0 ∧ st_won st = st_won st0 ∧ st_lost st = st_lost st0.
Proof.
  induction j as [| j IH]; cbv zeta in *.
  - by rewrite Nat.add_0_r.
  - rewrite Nat.add_succ_r, loop_S.
    destruct (extend_beyond (holeCount g + j)) as [E _]; [lia |].
    by rewrite (scoreHole_null _ _ _ E).
Qed.

End Extend.

(** C8.  [computeScores] is a function of its input (equal games give equal
    summaries), and appending holes without a result to a game whose hole
    list is no longer than its hole count, the hole count being raised by
    as many, changes no player's net, won or lost total. *)
Theorem appending_unscored_holes (g : Game) (extra : list Hole) :
  (length (holes g) ≤ holeCount g)%nat →
  Forall (λ h, result h = None) extra →
  (∀ g', g' = g → computeScores g' = computeScores g)
  ∧ totals (computeScores (extend g extra)) = totals (computeScores g)
  ∧ won (computeScores (extend g extra)) = won (computeScores g)
  ∧ lost (computeScores (extend g extra)) = lost (computeScores g).
Proof.
  intros Hlen Hnull. split; [by intros g' -> |].
  destruct (loop_extend_tail g extra Hlen Hnull (length extra)) as (E1 & E2 & E3).
  cbv zeta in *. unfold computeScores. simpl.
  by rewrite E1, E2, E3, !(loop_extend g extra Hlen Hnull).
Qed.

Lemma appending_unscored_holes_witness :
  totals (computeScores (extend game4 [emptyHole; emptyHole]))
  = totals (computeScores game4).
Proof.
  assert (H1 : (length (holes game4) ≤ holeCount game4)%nat) by (simpl; lia).
  assert (H2 : Forall (λ h, result h = None) [emptyHole; emptyHole])
    by (repeat constructor).
  exact (proj1 (proj2 (appending_unscored_holes game4 _ H1 H2))).
Defined.

(** ** The two engines *)

(** C9.  The pooled-pot engine and the all-pairs engine are different
    scoring rules: on a four-player game with a lone-wolf win followed by a
    team win they return different net totals, and no change of unit
    (multiplying every total of the newer engine by one constant) makes
    them agree. *)
Theorem engines_differ :
  ∃ g, wellFormed g
       ∧ Legacy.totals (Legacy.computeScores g) ≠ totals (computeScores g)
       ∧ ∀ c, Legacy.totals (Legacy.computeScores g)
              ≠ scale c <$> totals (computeScores g).
Proof.
  exists game7.
  assert (Ho1 : Legacy.totals (Legacy.computeScores game7) !! "p1"%string = Some (Int 0))
    by (vm_compute; reflexivity).
  assert (Ho2 : Legacy.totals (Legacy.computeScores game7) !! "p2"%string = Some (Int (-12)))
    by (vm_compute; reflexivity).
  assert (Hn1 : totals (computeScores game7) !! "p1"%string = Some (Int 1))
    by (vm_compute; reflexivity).
  assert (Hn2 : totals (computeScores game7) !! "p2"%string = Some (Int (-3)))
    by (vm_compute; reflexivity).
  split_and!.
  - apply (bool_decide_unpack _). vm_compute. exact I.
  - intros E. rewrite E, Hn1 in Ho1. discriminate Ho1.
  - intros c E. rewrite E, lookup_fmap in Ho1, Ho2.
    rewrite Hn1 in Ho1. rewrite Hn2 in Ho2. simpl in Ho1, Ho2.
    injection Ho1 as Ho1. injection Ho2 as Ho2. lia.
Qed.

(** ** Outside the well-formed games *)

(** Why [zero_sum] asks for partners that are players: a partner identifier
    that names nobody is credited under its own key, whose total is
    [undefined + 3], and the three real players of the field each pay two
    winners. *)
Remark unknown_partner_unbalanced :
  let g := {| players := four; holeCount := 1; options := plain;
              holes := [ team "zz" WOLF ] |} in
  ¬ wellFormed g
  ∧ totals (computeScores g) !! "zz"%string = Some NaN
  ∧ sumOver (totals (computeScores g)) (playerIds g) = Int (-3).
Proof.
  cbv zeta. split_and!; try (vm_compute; reflexivity).
  intros H. apply (bool_decide_pack _) in H. vm_compute in H. exact H.
Qed.

(** * Further properties *)

(** ** Normalising the hole list *)

Lemma holes_ensureHolesLength (s : Session) :
  holes (game (ensureHolesLength s))
  = take (holeCount (game s))
      (holes (game s)
       ++ replicate (holeCount (game s) - length (holes (game s))) emptyHole).
Proof.
  unfold ensureHolesLength. simpl. case_decide as H; [done |].
  rewrite take_ge; [done |]. lia.
Qed.

Lemma length_ensureHolesLength (s : Session) :
  length (holes (game (ensureHolesLength s))) = holeCount (game s).
Proof.
  rewrite holes_ensureHolesLength, length_take, length_app, length_replicate. lia.
Qed.

Lemma lookup_ensureHolesLength (s : Session) (i : nat) :
  (i < holeCount (game s))%nat →
  holes (game (ensureHolesLength s)) !! i = Some (holeAt (game s) i).
Proof.
  intros Hi. rewrite holes_ensureHolesLength, lookup_take_lt by done.
  unfold holeAt. destruct (decide (i < length (holes (game s)))%nat) as [Hlt | Hge].
  - rewrite lookup_app_l by done.
    destruct (lookup_lt_is_Some_2 _ _ Hlt) as [h Hh]. by rewrite Hh.
  - rewrite lookup_app_r by lia. rewrite lookup_replicate_2 by lia.
    by rewrite lookup_ge_None_2 by lia.
Qed.

Lemma ensureHolesLength_fixed (s : Session) :
  length (holes (game s)) = holeCount (game s) →
  clamp (currentHoleIndex s) 0 (Z.of_nat (holeCount (game s)) - 1)
  = currentHoleIndex s →
  ensureHolesLength s = s.
Proof.
  destruct s as [[ps hc o hs] c]. simpl. intros Hlen Hc.
  unfold ensureHolesLength. simpl. rewrite Hc, Hlen, Nat.sub_diag. simpl.
  rewrite app_nil_r, Hlen. by rewrite decide_False by lia.
Qed.

(** X1.  [ensureHolesLength] leaves a hole list of exactly [holeCount]
    entries: the holes that were there below [holeCount] are kept, the
    missing ones are fresh holes, nothing else of the game changes, and
    normalising twice is normalising once. *)
Theorem ensureHolesLength_normalises (s : Session) :
  let s' := ensureHolesLength s in
  length (holes (game s')) = holeCount (game s)
  ∧ (∀ i, (i < holeCount (game s))%nat →
       holes (game s') !! i
       = Some (default emptyHole (holes (game s) !! i)))
  ∧ players (game s') = players (game s)
  ∧ options (game s') = options (game s)
  ∧ holeCount (game s') = holeCount (game s)
  ∧ ensureHolesLength s' = s'.
Proof.
  cbv zeta. split_and!; try done.
  - apply length_ensureHolesLength.
  - intros i Hi. by apply lookup_ensureHolesLength.
  - apply (ensureHolesLength_fixed (ensureHolesLength s)).
    + exact (length_ensureHolesLength s).
    + unfold ensureHolesLength, clamp. simpl. lia.
Qed.

(** X2.  After [ensureHolesLength] on a game with at least one hole the
    cursor is the index of a hole of the list, and a cursor that was in
    range has not moved; with no hole at all the cursor is 0, which is the
    index of nothing. *)
Theorem ensureHolesLength_cursor (s : Session) :
  let s' := ensureHolesLength s in
  ((0 < holeCount (game s))%nat →
     0 ≤ currentHoleIndex s' < Z.of_nat (holeCount (game s))
     ∧ is_Some (holes (game s') !! Z.to_nat (currentHoleIndex s'))
     ∧ (0 ≤ currentHoleIndex s < Z.of_nat (holeCount (game s)) →
        currentHoleIndex s' = currentHoleIndex s))
  ∧ (holeCount (game s) = 0%nat →
     currentHoleIndex s' = 0
     ∧ holes (game s') !! Z.to_nat (currentHoleIndex s') = None).
Proof.
  cbv zeta. split.
  - intros Hpos.
    assert (Hr : 0 ≤ currentHoleIndex (ensureHolesLength s)
                 < Z.of_nat (holeCount (game s))).
    { unfold ensureHolesLength, clamp. simpl. lia. }
    split_and!; try apply Hr.
    + apply lookup_lt_is_Some_2. rewrite length_ensureHolesLength. lia.
    + intros Hin. unfold ensureHolesLength, clamp. simpl. lia.
  - intros H0. split.
    + unfold ensureHolesLength, clamp. simpl. lia.
    + apply lookup_ge_None_2. rewrite length_ensureHolesLength. lia.
Qed.

Lemma ensureHolesLength_cursor_witness :
  0 ≤ currentHoleIndex (ensureHolesLength {| game := game4; currentHoleIndex := 7 |})
    < 3.
Proof.
  pose proof (ensureHolesLength_cursor {| game := game4; currentHoleIndex := 7 |})
    as [H _].
  cbv zeta in H. simpl holeCount in H.
  destruct (H ltac:(lia)) as (Hr & _ & _). exact Hr.
Defined.

Lemma ensureHolesLength_normalises_witness :
  holes (game (ensureHolesLength
                 {| game := withHoles game4 [tie]; currentHoleIndex := 0 |})) !! 2%nat
  = Some emptyHole.
Proof.
  destruct (ensureHolesLength_normalises
              {| game := withHoles game4 [tie]; currentHoleIndex := 0 |})
    as (_ & H & _).
  apply (H 2%nat). simpl. lia.
Defined.

(** ** Games that agree hole by hole *)

Lemma loop_congr g g' k :
  players g' = players g → options g' = options g →
  (∀ i, (i < k)%nat → holeAt g' i = holeAt g i) →
  loop g' k = loop g k.
Proof.
  intros Hp Ho. induction k as [| k IH]; intros Hh.
  - unfold loop, initialState, playerIds. simpl. by rewrite Hp.
  - rewrite !loop_S, IH by (intros i Hi; apply Hh; lia).
    apply scoreHole_congr; [done | done | apply Hh; lia].
Qed.

Lemma legacy_scoreHole_congr g g' st i :
  players g' = players g → options g' = options g → holeAt g' i = holeAt g i →
  Legacy.scoreHole g' st i = Legacy.scoreHole g st i.
Proof.
  intros Hp Ho Hh. unfold Legacy.scoreHole, rotatedOrderForHole, playerIds.
  by rewrite Hp, Ho, Hh.
Qed.

Lemma legacy_loop_S g k :
  Legacy.loop g (S k) = Legacy.scoreHole g (Legacy.loop g k) k.
Proof. unfold Legacy.loop. by rewrite seq_S, fold_left_app. Qed.

Lemma legacy_loop_congr g g' k :
  players g' = players g → options g' = options g →
  (∀ i, (i < k)%nat → holeAt g' i = holeAt g i) →
  Legacy.loop g' k = Legacy.loop g k.
Proof.
  intros Hp Ho. induction k as [| k IH]; intros Hh.
  - unfold Legacy.loop, Legacy.initialState, playerIds. simpl. by rewrite Hp.
  - rewrite !legacy_loop_S, IH by (intros i Hi; apply Hh; lia).
    apply legacy_scoreHole_congr; [done | done | apply Hh; lia].
Qed.

(** X3.  Normalising the hole list changes no score: both engines return
    for the normalised game exactly what they return for the game as it
    was, whether its hole list was too short or too long. *)
Theorem ensureHolesLength_scores (s : Session) :
  computeScores (game (ensureHolesLength s)) = computeScores (game s)
  ∧ Legacy.computeScores (game (ensureHolesLength s))
    = Legacy.computeScores (game s).
Proof.
  assert (Hh : ∀ i, (i < holeCount (game s))%nat →
            holeAt (game (ensureHolesLength s)) i = holeAt (game s) i).
  { intros i Hi. unfold holeAt at 1. by rewrite lookup_ensureHolesLength. }
  split.
  - unfold computeScores.
    change (holeCount (game (ensureHolesLength s))) with (holeCount (game s)).
    by rewrite (loop_congr (game s) (game (ensureHolesLength s))).
  - unfold Legacy.computeScores.
    change (holeCount (game (ensureHolesLength s))) with (holeCount (game s)).
    by rewrite (legacy_loop_congr (game s) (game (ensureHolesLength s))).
Qed.

(** ** Names *)

Lemma find_player_id (ps : list Player) (id : string) :
  match List.find (λ p, bool_decide (player_id p = id)) ps with
  | Some p => p ∈ ps ∧ player_id p = id
  | None => id ∉ player_id <$> ps
  end.
Proof.
  induction ps as [| q ps IH]; cbn [List.find].
  - apply not_elem_of_nil.
  - case_bool_decide as Hq.
    + split; [apply list_elem_of_here | done].
    + destruct (List.find _ ps) as [p |].
      * destruct IH as [Hin Hid]. split; [by apply list_elem_of_further | done].
      * rewrite fmap_cons, elem_of_cons. intros [-> | Hin]; [done | by apply IH].
Qed.

(** X4.  [idToName] finds the name of every player of a roster with
    distinct identifiers, and answers ['Unknown'] for an identifier no
    player has. *)
Theorem idToName_roster (g : Game) :
  NoDup (playerIds g) →
  (∀ p, p ∈ players g → idToName g (player_id p) = player_name p)
  ∧ (∀ id, id ∉ playerIds g → idToName g id = "Unknown"%string).
Proof.
  intros Hnd. split.
  - intros p Hp. unfold idToName.
    pose proof (find_player_id (players g) (player_id p)) as Hf.
    destruct (List.find _ (players g)) as [q |]; simpl.
    + destruct Hf as [Hq Hid]. f_equal.
      apply list_elem_of_lookup in Hp as [i Hi], Hq as [j Hj].
      assert (i = j) as ->.
      { apply (NoDup_lookup (playerIds g) i j (player_id p)); [done | |];
          unfold playerIds; rewrite list_lookup_fmap.
        - by rewrite Hi.
        - rewrite Hj. simpl. by rewrite Hid. }
      congruence.
    + exfalso. apply Hf. by apply list_elem_of_fmap_2.
  - intros id Hid. unfold idToName.
    pose proof (find_player_id (players g) id) as Hf.
    destruct (List.find _ (players g)) as [q |]; [| done].
    destruct Hf as [Hq <-]. exfalso. apply Hid. by apply list_elem_of_fmap_2.
Qed.

Lemma idToName_roster_witness :
  idToName game1 "p3" = "p3"%string ∧ idToName game1 "p9" = "Unknown"%string.
Proof.
  assert (H : NoDup (playerIds game1)) by (apply (bool_decide_unpack _); vm_compute; exact I).
  destruct (idToName_roster game1 H) as [H1 H2]. split.
  - apply (H1 {| player_id := "p3"; player_name := "p3" |}).
    vm_compute. do 2 apply list_elem_of_further. apply list_elem_of_here.
  - apply H2. apply (bool_decide_unpack _). vm_compute. exact I.
Defined.

(** ** Escaping *)

Lemma append_assoc (s1 s2 s3 : string) : (s1 +:+ s2) +:+ s3 = s1 +:+ (s2 +:+ s3).
Proof.
  induction s1 as [| a s1 IH]; [done |].
  change (String a ((s1 +:+ s2) +:+ s3) = String a (s1 +:+ (s2 +:+ s3))).
  by f_equal.
Qed.

Lemma chars_app (s1 s2 : string) : chars (s1 +:+ s2) = chars s1 ++ chars s2.
Proof.
  induction s1 as [| a s1 IH]; [done |].
  change (a :: chars (s1 +:+ s2) = a :: (chars s1 ++ chars s2)).
  by f_equal.
Qed.

Lemma replaceAll_app c r (s1 s2 : string) :
  replaceAll c r (s1 +:+ s2) = replaceAll c r s1 +:+ replaceAll c r s2.
Proof.
  induction s1 as [| a s1 IH]; [done |].
  change (String a s1 +:+ s2) with (String a (s1 +:+ s2)).
  cbn [replaceAll]. by rewrite IH, append_assoc.
Qed.

Lemma escapeHtml_app (s1 s2 : string) :
  escapeHtml (s1 +:+ s2) = escapeHtml s1 +:+ escapeHtml s2.
Proof. unfold escapeHtml. by rewrite !replaceAll_app. Qed.

Lemma replaceAll_other c r a :
  a ≠ c → replaceAll c r (String a EmptyString) = String a EmptyString.
Proof. intros H. simpl. by rewrite decide_False. Qed.

Lemma escapeHtml_char (a : Ascii.ascii) :
  escapeHtml (String a EmptyString) = escapeChar a.
Proof.
  unfold escapeChar.
  destruct (decide (a = ampChar)) as [-> | H1]; [by vm_compute |].
  destruct (decide (a = ltChar)) as [-> | H2]; [by vm_compute |].
  destruct (decide (a = gtChar)) as [-> | H3]; [by vm_compute |].
  destruct (decide (a = dquoteChar)) as [-> | H4]; [by vm_compute |].
  destruct (decide (a = squoteChar)) as [-> | H5]; [by vm_compute |].
  unfold escapeHtml. by rewrite !replaceAll_other.
Qed.

(** X5.  [escapeHtml] works character by character although it is written
    as five passes: every [&], [<], [>], double quote and single quote
    becomes its entity exactly once (the ampersands of the entities are not
    escaped again), every other character is kept, so the escape of a
    concatenation is the concatenation of the escapes and the result holds
    none of [<], [>], double quote, single quote. *)
Theorem escapeHtml_charwise :
  escapeHtml EmptyString = EmptyString
  ∧ (∀ a s, escapeHtml (String a s) = escapeChar a +:+ escapeHtml s)
  ∧ (∀ s1 s2, escapeHtml (s1 +:+ s2) = escapeHtml s1 +:+ escapeHtml s2)
  ∧ (∀ s c, c ∈ chars (escapeHtml s) →
       c ≠ ltChar ∧ c ≠ gtChar ∧ c ≠ dquoteChar ∧ c ≠ squoteChar).
Proof.
  assert (Hcons : ∀ a s, escapeHtml (String a s) = escapeChar a +:+ escapeHtml s).
  { intros a s. change (String a s) with (String a EmptyString +:+ s).
    by rewrite escapeHtml_app, escapeHtml_char. }
  split_and!; [done | done | apply escapeHtml_app |].
  induction s as [| a s IH]; intros c Hc.
  - by apply not_elem_of_nil in Hc.
  - rewrite Hcons, chars_app, elem_of_app in Hc.
    destruct Hc as [Hc | Hc]; [| by apply IH].
    unfold escapeChar in Hc. repeat case_decide; subst;
      vm_compute in Hc;
      repeat (apply elem_of_cons in Hc as [-> | Hc]; [by vm_compute |]);
      by apply not_elem_of_nil in Hc.
Qed.

Lemma escapeHtml_charwise_witness :
  escapeHtml "a<b&c" = "a&lt;b&amp;c"%string.
Proof.
  destruct escapeHtml_charwise as (H0 & Hc & _).
  rewrite !Hc, H0. vm_compute. reflexivity.
Defined.

(** ** Setting a game up *)

Lemma ids_buildPlayersFromInputs trim (inputs : list string) :
  player_id <$> buildPlayersFromInputs trim inputs
  = (λ i, "p" +:+ pretty (i + 1)%nat) <$> seq 0 (length inputs).
Proof.
  unfold buildPlayersFromInputs. rewrite fmap_imap.
  by rewrite <- (imap_seq_0 inputs (λ i, "p" +:+ pretty (i + 1)%nat)).
Qed.

(** X6.  [buildPlayersFromInputs] makes one player per name input, the
    player of input [i] has the identifier [p(i+1)], and the identifiers
    are pairwise different whatever the names are: a game set up from the
    page always has a roster of distinct identifiers. *)
Theorem buildPlayersFromInputs_ids trim (inputs : list string) :
  let ps := buildPlayersFromInputs trim inputs in
  length ps = length inputs
  ∧ (∀ i, (i < length inputs)%nat →
       player_id <$> ps !! i = Some ("p" +:+ pretty (i + 1)%nat))
  ∧ NoDup (player_id <$> ps).
Proof.
  cbv zeta. split_and!.
  - unfold buildPlayersFromInputs. apply length_imap.
  - intros i Hi. rewrite <- list_lookup_fmap, ids_buildPlayersFromInputs.
    rewrite list_lookup_fmap, lookup_seq_lt by done. done.
  - rewrite ids_buildPlayersFromInputs. apply NoDup_fmap_2; [| apply NoDup_seq].
    intros i j E. injection E as E. apply pretty_nat_inj in E. lia.
Qed.

Lemma buildPlayersFromInputs_ids_witness :
  player_id <$> buildPlayersFromInputs (λ s, s) ["Ann"; ""; "Cy"; "Di"]%string !! 1%nat
  = Some "p2"%string.
Proof.
  destruct (buildPlayersFromInputs_ids (λ s, s) ["Ann"; ""; "Cy"; "Di"]%string)
    as (_ & H & _).
  rewrite (H 1%nat) by (simpl; lia). vm_compute. reflexivity.
Defined.

(** ** How often a player holds the role *)

Lemma filter_none {A} (P : A → Prop) `{∀ x, Decision (P x)} (l : list A) :
  (∀ x, x ∈ l → ¬ P x) → filter P l = [].
Proof.
  induction l as [| x l IH]; intros Hl; [done |].
  rewrite filter_cons_False by (apply Hl, list_elem_of_here).
  apply IH. intros y Hy. by apply Hl, list_elem_of_further.
Qed.

Lemma filter_seq_unique (P : nat → Prop) `{∀ i, Decision (P i)} (s n j0 : nat) :
  (s ≤ j0 < s + n)%nat →
  (∀ j, (s ≤ j < s + n)%nat → P j ↔ j = j0) →
  filter P (seq s n) = [j0].
Proof.
  revert s. induction n as [| n IH]; intros s Hj HP; [lia |].
  cbn [seq]. destruct (decide (s = j0)) as [-> | Hne].
  - rewrite filter_cons_True by (apply HP; lia).
    f_equal. apply filter_none. intros j Hj'.
    apply elem_of_seq in Hj'. intros HPj. apply HP in HPj; lia.
  - rewrite filter_cons_False by (intros HPs; apply HP in HPs; lia).
    apply IH; [lia |]. intros j Hj'. apply HP. lia.
Qed.

Lemma wolf_block (g : Game) (m j0 : nat) (p : string) :
  NoDup (playerIds g) → playerIds g !! j0 = Some p →
  let N := length (players g) in
  filter (λ i, wolfIdForHole g i = Some p) (seq (m * N) N)
  = [(m * N + (N - 1 - j0))%nat].
Proof.
  intros Hnd Hj0 N.
  assert (Hj0N : (j0 < N)%nat).
  { apply lookup_lt_Some in Hj0. by rewrite length_playerIds in Hj0. }
  apply filter_seq_unique; [lia |].
  intros i Hi. unfold wolfIdForHole. rewrite wolfId_seat by (fold N; lia). fold N.
  assert (Hmod : (i mod N = i - m * N)%nat).
  { replace i with ((i - m * N) + m * N)%nat at 1 by lia.
    rewrite Nat.Div0.mod_add. apply Nat.mod_small. lia. }
  rewrite Hmod. split.
  - intros Hi'. pose proof (NoDup_lookup _ _ _ _ Hnd Hi' Hj0). lia.
  - intros ->. rewrite <- Hj0. f_equal. lia.
Qed.

Lemma wolf_count (g : Game) (k : nat) (p : string) :
  NoDup (playerIds g) → p ∈ playerIds g →
  length (filter (λ i, wolfIdForHole g i = Some p)
            (seq 0 (k * length (players g))))
  = k.
Proof.
  intros Hnd Hp. apply list_elem_of_lookup in Hp as [j0 Hj0].
  induction k as [| k IH]; [done |].
  replace (S k * length (players g))%nat
    with (k * length (players g) + length (players g))%nat by lia.
  rewrite seq_app, filter_app, length_app, IH. simpl Nat.add at 2.
  rewrite (wolf_block g k j0 p Hnd Hj0). simpl. lia.
Qed.

(** X7.  The role goes round evenly: with a roster of distinct identifiers,
    over the first [k × N] holes every player holds the role on exactly [k]
    holes. *)
Theorem wolf_rotation_even (g : Game) (k : nat) (p : string) :
  NoDup (playerIds g) → p ∈ playerIds g →
  length (filter (λ i, wolfIdForHole g i = Some p)
            (seq 0 (k * length (players g))))
  = k.
Proof. apply wolf_count. Qed.

Lemma wolf_rotation_even_witness :
  length (filter (λ i, wolfIdForHole roster4 i = Some "p2"%string) (seq 0 12)) = 3%nat.
Proof.
  assert (H1 : NoDup (playerIds roster4)) by (apply (bool_decide_unpack _); vm_compute; exact I).
  assert (H2 : "p2"%string ∈ playerIds roster4)
    by (vm_compute; apply list_elem_of_further, list_elem_of_here).
  exact (wolf_rotation_even roster4 3 "p2" H1 H2).
Defined.

Lemma pickHoleCount_suggested (playerCount : Z) (sel : option Z) :
  pickHoleCount playerCount sel ∈ suggested playerCount.
Proof.
  assert (Hd : (if playerCount =? 4 then 12 else 15) ∈ suggested playerCount).
  { unfold suggested. destruct (playerCount =? 4).
    - apply list_elem_of_further, list_elem_of_here.
    - apply list_elem_of_further, list_elem_of_here. }
  unfold pickHoleCount. destruct sel as [sel |]; [| done].
  destruct (negb (sel =? 0) && bool_decide (sel ∈ suggested playerCount)) eqn:E;
    [| done].
  apply andb_true_iff in E as [_ E]. by apply bool_decide_eq_true in E.
Qed.

(** X8.  The hole count stored by [renderHoleOptionsButtons] is always one
    of the counts it offers, whatever was selected before; for four or five
    players it is a multiple of the number of players, so that with a
    roster of distinct identifiers every player holds the role equally
    often, on [holeCount / playerCount] holes. *)
Theorem pickHoleCount_even (g : Game) (selectedHoleCount : option Z) (p : string) :
  let playerCount := Z.of_nat (length (players g)) in
  let pick := pickHoleCount playerCount selectedHoleCount in
  pick ∈ suggested playerCount
  ∧ (playerCount = 4 ∨ playerCount = 5 →
     NoDup (playerIds g) → p ∈ playerIds g →
     (playerCount | pick)
     ∧ Z.of_nat (length (filter (λ i, wolfIdForHole g i = Some p)
                            (seq 0 (Z.to_nat pick))))
       = pick `div` playerCount).
Proof.
  intros playerCount pick. split; [apply pickHoleCount_suggested |].
  intros Hpc Hnd Hp.
  pose proof (pickHoleCount_suggested playerCount selectedHoleCount) as Hs.
  fold pick in Hs.
  assert (Hk : ∃ k : nat, pick = Z.of_nat k * playerCount).
  { unfold suggested in Hs. destruct Hpc as [E | E]; rewrite E in *; simpl in Hs;
      repeat (apply elem_of_cons in Hs as [-> | Hs]);
      try (by apply not_elem_of_nil in Hs).
    - by exists 2%nat.
    - by exists 3%nat.
    - by exists 4%nat.
    - by exists 5%nat.
    - by exists 2%nat.
    - by exists 3%nat.
    - by exists 4%nat.
    - by exists 5%nat. }
  destruct Hk as [k Hk]. rewrite Hk. split.
  - by exists (Z.of_nat k).
  - rewrite Z.div_mul by lia.
    replace (Z.to_nat (Z.of_nat k * playerCount)) with (k * length (players g))%nat
      by (unfold playerCount; lia).
    by rewrite wolf_count.
Qed.

Lemma pickHoleCount_even_witness :
  Z.of_nat (length (filter (λ i, wolfIdForHole roster4 i = Some "p2"%string)
                      (seq 0 (Z.to_nat (pickHoleCount 4 (Some 16))))))
  = 4.
Proof.
  assert (H1 : NoDup (playerIds roster4)) by (apply (bool_decide_unpack _); vm_compute; exact I).
  assert (H2 : "p2"%string ∈ playerIds roster4)
    by (vm_compute; apply list_elem_of_further, list_elem_of_here).
  destruct (pickHoleCount_even roster4 (Some 16) "p2") as [_ H].
  destruct (H (or_introl eq_refl) H1 H2) as [_ E]. exact E.
Defined.

(** ** Printing points *)

Lemma gcdSteps_gcd (n : nat) : ∀ a b,
  0 ≤ a → 0 ≤ b → (Z.to_nat b < n)%nat → gcdSteps n a b = Z.gcd a b.
Proof.
  induction n as [| n IH]; intros a b Ha Hb Hn; [lia |].
  cbn [gcdSteps]. destruct (Z.eqb_spec b 0) as [-> | Hb0].
  - rewrite Z.gcd_0_r. lia.
  - pose proof (Z.mod_pos_bound a b ltac:(lia)) as Hm.
    rewrite IH by lia.
    rewrite Z.gcd_comm, Z.gcd_mod by done. apply Z.gcd_comm.
Qed.

Lemma gcd_gcd (a b : Z) : 0 ≤ a → 0 ≤ b → gcd a b = Z.gcd a b.
Proof. intros Ha Hb. unfold gcd. apply gcdSteps_gcd; lia. Qed.

(** X9.  In the later generation, where a point is one unit,
    [formatPoints] prints every total that is a safe integer as a plain
    signed decimal integer, never as a fraction, and two different such
    totals are never printed alike. *)
Theorem formatPoints_integer (u v : Z) :
  safeInteger u → safeInteger v →
  formatPoints u = pretty u
  ∧ (formatPoints u = formatPoints v → u = v).
Proof.
  intros _ _.
  assert (H : ∀ units, formatPoints units = pretty units).
  { intros units. unfold formatPoints, formatPointsIn, POINTS_UNIT.
    rewrite Z.mod_1_r, Z.div_1_r. cbn [Z.eqb].
    destruct units as [| p | p]; reflexivity. }
  split; [done |].
  intros E. rewrite !H in E. by apply (inj pretty) in E.
Qed.

Lemma formatPoints_integer_witness :
  formatPoints (-12) = "-12"%string ∧ formatPoints (-12) ≠ formatPoints 12.
Proof.
  assert (H1 : safeInteger (-12)) by (unfold safeInteger; simpl; lia).
  assert (H2 : safeInteger 12) by (unfold safeInteger; simpl; lia).
  destruct (formatPoints_integer (-12) 12 H1 H2) as [H Hinj].
  split; [rewrite H; vm_compute; reflexivity |].
  intros E. apply Hinj in E. discriminate E.
Defined.

(** X10.  For any positive unit and any total, both safe integers,
    [formatPoints] prints a total that is a whole number of points as that
    integer, and any other total as an optional whole part followed by a
    proper fraction [num/den] in lowest terms whose value is exactly the
    remainder over the unit. *)
Theorem formatPointsIn_fraction (unit units : Z) :
  0 < unit → safeInteger unit → safeInteger units →
  let abs := Z.abs units in
  let sign := if units <? 0 then "-"%string else EmptyString in
  (abs `mod` unit = 0 →
     formatPointsIn unit units = sign +:+ pretty (abs `div` unit))
  ∧ (abs `mod` unit ≠ 0 →
     ∃ num den,
       0 < num < den
       ∧ Z.gcd num den = 1
       ∧ num * unit = (abs `mod` unit) * den
       ∧ formatPointsIn unit units
         = if abs `div` unit =? 0
           then sign +:+ pretty num +:+ "/" +:+ pretty den
           else sign +:+ pretty (abs `div` unit) +:+ " "
                +:+ pretty num +:+ "/" +:+ pretty den).
Proof.
  intros Hunit _ _ abs sign. split.
  - intros Hrem. unfold formatPointsIn. fold abs sign.
    by rewrite Hrem.
  - intros Hrem. unfold formatPointsIn. fold abs sign.
    destruct (Z.eqb_spec (abs `mod` unit) 0) as [E | _]; [done |].
    pose proof (Z.mod_pos_bound abs unit Hunit) as Hm.
    rewrite gcd_gcd by lia.
    set (r := abs `mod` unit) in *. set (g := Z.gcd r unit).
    assert (Hg : 0 < g).
    { pose proof (Z.gcd_nonneg r unit).
      destruct (decide (g = 0)) as [E | E]; [| lia].
      apply Z.gcd_eq_0_l in E. lia. }
    destruct (Z.gcd_divide_l r unit) as [q1 Hq1].
    destruct (Z.gcd_divide_r r unit) as [q2 Hq2]. fold g in Hq1, Hq2.
    assert (E1 : r `div` g = q1) by (rewrite Hq1 at 1; apply Z.div_mul; lia).
    assert (E2 : unit `div` g = q2) by (rewrite Hq2 at 1; apply Z.div_mul; lia).
    exists (r `div` g), (unit `div` g). split_and!.
    + rewrite E1. nia.
    + rewrite E1, E2. nia.
    + apply Z.gcd_div_gcd; [lia | done].
    + rewrite E1, E2. nia.
    + done.
Qed.

Lemma formatPointsIn_fraction_witness :
  formatPointsIn Legacy.POINTS_UNIT 12 = "2"%string.
Proof.
  assert (H : 0 < Legacy.POINTS_UNIT) by reflexivity.
  assert (Hu : safeInteger Legacy.POINTS_UNIT) by reflexivity.
  assert (Hs : safeInteger 12) by reflexivity.
  destruct (formatPointsIn_fraction Legacy.POINTS_UNIT 12 H Hu Hs) as [H1 _].
  rewrite H1 by reflexivity. vm_compute. reflexivity.
Defined.

(** ** The breakdown, hole by hole *)

Lemma sides_is_Some order h b :
  is_Some (sides order h b)
  ↔ loneWolf h || negb (invalidPartner (partnerId h) (wolfIdOf order)) = true.
Proof.
  unfold sides. destruct (loneWolf h); simpl.
  - split; [done | by eexists].
  - destruct (invalidPartner (partnerId h) (wolfIdOf order)); simpl.
    + split; [by intros [? ?] | done].
    + split; [done | by eexists].
Qed.

Lemma scoreHole_status g st i :
  ∃ e, st_perHole (scoreHole g st i) = st_perHole st ++ [e]
       ∧ hole e = (i + 1)%nat ∧ status e = holeStatus g i.
Proof.
  unfold holeStatus.
  destruct (result (holeAt g i)) as [r |] eqn:Hr.
  2:{ rewrite (scoreHole_null g _ i Hr). by exists (notScoredEntry g i). }
  destruct (decide (r = TIE)) as [-> | Hnt].
  { rewrite (scoreHole_tie g _ i Hr). exists (tieEntry g i).
    split; [| done]. simpl. by rewrite perHole_if. }
  assert (Hd : decisive (holeAt g i)).
  { unfold decisive. rewrite Hr. destruct r; auto. done. }
  assert (Hw : wolfWonOn (holeAt g i) = bool_decide (r = WOLF)).
  { unfold wolfWonOn. rewrite Hr. destruct r; done. }
  pose proof (sides_is_Some (rotatedOrderForHole g i) (holeAt g i)
                (wolfWonOn (holeAt g i))) as Hiff.
  destruct (sides (rotatedOrderForHole g i) (holeAt g i) (wolfWonOn (holeAt g i)))
    as [[[W L] label] |] eqn:Hs.
  - rewrite (scoreHole_decisive g _ i W L label Hd Hs). cbv zeta.
    eexists. split.
    { simpl. rewrite !(proj1 (applyAll_frame _ _ _)). simpl.
      by rewrite perHole_if. }
    split; [done |]. simpl.
    rewrite (proj1 Hiff) by eauto. rewrite Hw. by destruct r.
  - rewrite (scoreHole_invalid g _ i Hd Hs). exists (notScoredEntry g i).
    split; [simpl; by rewrite perHole_if |]. split; [done |]. simpl.
    destruct (loneWolf (holeAt g i)
              || negb (invalidPartner (partnerId (holeAt g i))
                         (wolfIdOf (rotatedOrderForHole g i)))) eqn:E.
    + destruct (proj2 Hiff eq_refl) as [? ?]. done.
    + by destruct r.
Qed.

Lemma breakdown_lookup g i :
  (i < holeCount g)%nat →
  ∃ e, perHole (computeScores g) !! i = Some e
       ∧ hole e = (i + 1)%nat ∧ status e = holeStatus g i.
Proof.
  intros Hi. destruct (scoreHole_status g (loop g i) i) as (e & He & Hh & Hs).
  exists e. split; [| done]. by apply (perHole_lookup_step g (holeCount g) i e Hi).
Qed.

(** X11.  The breakdown has one entry per hole, in order and numbered from
    1, and the status of an entry depends on its own hole only, not on the
    holes before it: NOT_SCORED without a result or on a decisive team hole
    without a usable partner, TIE on a tie, and otherwise WOLF_WIN or
    OTHER_WIN as the result says. *)
Theorem breakdown_status (g : Game) (i : nat) :
  (i < holeCount g)%nat →
  ∃ e, perHole (computeScores g) !! i = Some e
       ∧ hole e = (i + 1)%nat ∧ status e = holeStatus g i.
Proof. apply breakdown_lookup. Qed.

Lemma breakdown_status_witness :
  ∃ e, perHole (computeScores game5) !! 1%nat = Some e ∧ status e = NOT_SCORED.
Proof.
  destruct (breakdown_status game5 1) as (e & He & _ & Hs); [simpl; lia |].
  exists e. split; [exact He |]. rewrite Hs. reflexivity.
Defined.

Lemma scored_count g k :
  length (filter (λ e, status e ≠ NOT_SCORED) (st_perHole (loop g k)))
  = length (filter (λ i, holeStatus g i ≠ NOT_SCORED) (seq 0 k)).
Proof.
  induction k as [| k IH]; [done |].
  rewrite loop_S, seq_S.
  destruct (scoreHole_status g (loop g k) k) as (e & -> & _ & Hs).
  rewrite !filter_app, !length_app, IH. f_equal. simpl.
  destruct (decide (holeStatus g k = NOT_SCORED)) as [E | E].
  - rewrite !filter_cons_False; [done | | ]; intros H; apply H; [done | by rewrite Hs].
  - rewrite !filter_cons_True; [done | done | by rewrite Hs].
Qed.

(** X12.  [holesScoredCount] is the number of holes, among the first
    [holeCount], that are tied or settled; holes without a result and team
    holes without a usable partner are not counted, so it never exceeds
    [holeCount]. *)
Theorem holesScoredCount_counts (g : Game) :
  holesScoredCount (computeScores g)
  = length (filter (λ i, holeStatus g i ≠ NOT_SCORED) (seq 0 (holeCount g)))
  ∧ (holesScoredCount (computeScores g) ≤ holeCount g)%nat.
Proof.
  assert (E : holesScoredCount (computeScores g)
              = length (filter (λ i, holeStatus g i ≠ NOT_SCORED)
                          (seq 0 (holeCount g)))) by apply scored_count.
  split; [done |]. rewrite E.
  etrans; [apply length_filter |]. by rewrite length_seq.
Qed.

(** ** The carry and the wager *)

Lemma carry_range g k :
  0 ≤ carryPerPlayer (loop g k) ≤ Z.of_nat k
  ∧ (pushTies (options g) = false → carryPerPlayer (loop g k) = 0).
Proof.
  induction k as [| k [IH1 IH2]]; [by simpl |].
  rewrite loop_S. destruct (result (holeAt g k)) as [r |] eqn:Hr.
  2:{ rewrite (scoreHole_null g _ k Hr). simpl. split; [lia | done]. }
  destruct (decide (r = TIE)) as [-> | Hnt].
  { rewrite (scoreHole_tie g _ k Hr). simpl.
    destruct (pushTies (options g)); simpl; split; try lia; try done;
      try (by intros _; apply IH2). }
  assert (Hd : decisive (holeAt g k)).
  { unfold decisive. rewrite Hr. destruct r; auto. done. }
  rewrite (carry_decisive g _ k Hd).
  destruct (pushTies (options g)); split; try lia; try done;
    try (by intros _; apply IH2).
Qed.

(** X13.  The carry is never negative and never more than the number of
    holes played so far, and it stays 0 when ties are not pushed; so the
    wager of a hole is at least 1, at most the number of earlier holes
    plus 2, and without pushed ties it is 1, or 2 on a blind hole of a
    game with blind wolf. *)
Theorem wager_bounds (g : Game) (k : nat) (h : Hole) :
  let carry := carryPerPlayer (loop g k) in
  let wager := wagerPerPlayer g carry h in
  0 ≤ carry ≤ Z.of_nat k
  ∧ 1 ≤ wager ≤ Z.of_nat k + 2
  ∧ (pushTies (options g) = false →
     carry = 0 ∧ wager = if blindWolf (options g) && blind h then 2 else 1).
Proof.
  cbv zeta. destruct (carry_range g k) as [Hr H0].
  rewrite wager_unfold. split_and!; try lia.
  - destruct (pushTies (options g)), (blindWolf (options g) && blind h); lia.
  - destruct (pushTies (options g)), (blindWolf (options g) && blind h); lia.
  - intros Hp. split; [by apply H0 |]. rewrite Hp.
    by destruct (blindWolf (options g) && blind h).
Qed.

Lemma wager_bounds_witness :
  wagerPerPlayer game1 (carryPerPlayer (loop game1 1)) (lone WOLF) = 1.
Proof.
  destruct (wager_bounds game1 1 (lone WOLF)) as (_ & _ & H).
  destruct (H eq_refl) as [_ E]. exact E.
Defined.

(** ** The keys of the summary *)

Lemma dom_zeroObject (ids : list string) :
  dom (zeroObject ids) = (list_to_set ids : gset string).
Proof.
  apply set_eq. intros k. rewrite elem_of_dom, lookup_zeroObject, elem_of_list_to_set.
  case_decide; split; try done; by intros [? ?].
Qed.

Lemma dom_insert_known (o : gmap string num) k v :
  k ∈ dom o → dom (<[k := v]> o) = dom o.
Proof.
  intros Hk. rewrite dom_insert_L. apply subseteq_union_1_L.
  by apply singleton_subseteq_l.
Qed.

Lemma dom_addTo (o : gmap string num) k z :
  k ∈ dom o → dom (addTo o k z) = dom o.
Proof. apply dom_insert_known. Qed.

Lemma applyDelta_keyed D acc pid d :
  pid ∈ D → keyed D acc → keyed D (applyDelta acc pid d).
Proof.
  intros Hpid (H1 & H2 & H3 & H4). destruct acc as [st delta]. simpl in *.
  unfold applyDelta. destruct (d =? 0); [done |].
  unfold keyed. simpl. split_and!.
  - rewrite dom_addTo; [done | by rewrite H1].
  - destruct (0 <? d); [| done]. rewrite dom_addTo; [done | by rewrite H2].
  - destruct (d <? 0); [| done]. rewrite dom_addTo; [done | by rewrite H3].
  - rewrite dom_insert_known; [done | by rewrite H4].
Qed.

Lemma applyAll_keyed D l : ∀ acc d,
  (∀ x, x ∈ l → x ∈ D) → keyed D acc → keyed D (applyAll acc l d).
Proof.
  induction l as [| x l IH]; intros acc d Hl H; [done |].
  change (applyAll acc (x :: l) d) with (applyAll (applyDelta acc x d) l d).
  apply IH.
  - intros y Hy. by apply Hl, list_elem_of_further.
  - apply applyDelta_keyed; [apply Hl, list_elem_of_here | done].
Qed.

Lemma scoreHole_keyed g st i :
  NoDup (playerIds g) → players g ≠ [] → partnerKnown g (holeAt g i) →
  let D : gset string := list_to_set (playerIds g) in
  dom (st_totals st) = D → dom (st_won st) = D → dom (st_lost st) = D →
  ∃ e, st_perHole (scoreHole g st i) = st_perHole st ++ [e]
       ∧ dom (deltaByPlayer e) = D
       ∧ dom (st_totals (scoreHole g st i)) = D
       ∧ dom (st_won (scoreHole g st i)) = D
       ∧ dom (st_lost (scoreHole g st i)) = D.
Proof.
  intros Hnd Hne Hpk D H1 H2 H3.
  destruct (scoreHole_cases g st i) as [(e & -> & Hz) | (W & L & label & Hd & Hs)].
  { exists e. simpl. split_and!; try done. rewrite Hz. apply dom_zeroObject. }
  rewrite (scoreHole_decisive g st i W L label Hd Hs). cbv zeta.
  pose proof (sides_partition g i Hnd Hne _ _ W L label Hpk Hs) as HP.
  assert (HW : ∀ x, x ∈ W → x ∈ D).
  { intros x Hx. apply elem_of_list_to_set. rewrite <- HP, elem_of_app. by left. }
  assert (HL : ∀ x, x ∈ L → x ∈ D).
  { intros x Hx. apply elem_of_list_to_set. rewrite <- HP, elem_of_app. by right. }
  set (st1 := if pushTies (options g) then setCarry st 0 else st).
  assert (H0 : keyed D (st1, zeroObject (playerIds g))).
  { unfold keyed, st1. simpl. rewrite dom_zeroObject.
    by destruct (pushTies (options g)). }
  match goal with
  | |- context [applyAll (applyAll ?a W ?dW) L ?dL] =>
      pose proof (applyAll_keyed D L _ dL HL (applyAll_keyed D W a dW HW H0))
        as (K1 & K2 & K3 & K4)
  end.
  eexists. split.
  { simpl. rewrite !(proj1 (applyAll_frame _ _ _)). unfold st1. simpl.
    by rewrite perHole_if. }
  simpl. by split_and!.
Qed.

(** X14.  In a well-formed game with at least one player the objects of
    the summary have the players' identifiers as their only keys and hold
    integers only: [totals], [won], [lost] and the delta map of every entry
    of the breakdown have exactly one property per player, and none of them
    is [NaN]. *)
Theorem summary_keys (g : Game) :
  wellFormed g → players g ≠ [] →
  let s := computeScores g in
  let D : gset string := list_to_set (playerIds g) in
  dom (totals s) = D ∧ dom (won s) = D ∧ dom (lost s) = D
  ∧ (∀ e, e ∈ perHole s → dom (deltaByPlayer e) = D)
  ∧ (∀ k v, totals s !! k = Some v ∨ won s !! k = Some v ∨ lost s !! k = Some v →
       k ∈ playerIds g ∧ v ≠ NaN).
Proof.
  intros Hwf Hne s D.
  assert (HK : ∀ k, dom (st_totals (loop g k)) = D ∧ dom (st_won (loop g k)) = D
                    ∧ dom (st_lost (loop g k)) = D
                    ∧ Forall (λ e, dom (deltaByPlayer e) = D) (st_perHole (loop g k))).
  { induction k as [| k (K1 & K2 & K3 & K4)].
    - simpl. rewrite dom_zeroObject. by split_and!.
    - rewrite loop_S.
      destruct (scoreHole_keyed g (loop g k) k (proj1 Hwf) Hne
                  (partnerKnown_holeAt g k Hwf) K1 K2 K3)
        as (e & -> & He & K1' & K2' & K3').
      split_and!; try done. apply Forall_app. split; [done |].
      by apply Forall_singleton. }
  destruct (HK (holeCount g)) as (K1 & K2 & K3 & K4).
  destruct (Inv_loop g (holeCount g) (proj1 Hwf)) as [I1 I2 I3 _].
  subst s. simpl. split_and!; try done.
  - intros e He. rewrite Forall_forall in K4. by apply K4.
  - assert (Hgen : ∀ (o : gmap string num) f k v,
              dom o = D → intOn (playerIds g) o f → o !! k = Some v →
              k ∈ playerIds g ∧ v ≠ NaN).
    { intros o f k v Hdom Hint Hk.
      assert (Hin : k ∈ playerIds g).
      { apply (elem_of_list_to_set (C := gset string)). fold D. rewrite <- Hdom.
        apply elem_of_dom. by eexists. }
      split; [done |]. rewrite (Hint k Hin) in Hk. by injection Hk as <-. }
    intros k v [Hk | [Hk | Hk]].
    + exact (Hgen _ _ k v K1 I1 Hk).
    + exact (Hgen _ _ k v K2 I2 Hk).
    + exact (Hgen _ _ k v K3 I3 Hk).
Qed.

Lemma summary_keys_witness :
  dom (totals (computeScores game3)) = (list_to_set (playerIds game3) : gset string).
Proof.
  assert (H1 : wellFormed game3) by (apply (bool_decide_unpack _); vm_compute; exact I).
  assert (H2 : players game3 ≠ []) by done.
  exact (proj1 (summary_keys game3 H1 H2)).
Defined.

(** ** The game screen *)

Lemma handle_exclusive (h : Hole) (ev : Event) :
  exclusive h → exclusive (handle h ev).
Proof.
  intros [Hb Hl].
  destruct ev as [[] | [] | [] | pid | r], h as [[pa |] lw re bl];
    unfold exclusive, onPartnerClick, enforceBlindImpliesLone in *; simpl in *;
    destruct bl, lw; simpl; split; intros; auto; try discriminate;
    exfalso; (discriminate (Hl eq_refl) || discriminate (Hb eq_refl)).
Qed.

Lemma withHole_same (g : Game) (i : nat) (h : Hole) :
  holes g !! i = Some h → withHole g i h = g.
Proof.
  intros Hh. destruct g as [ps hc o hs]. unfold withHole. simpl in *.
  by rewrite list_insert_id.
Qed.

(** X15.  The handlers of the game screen keep the rule that a blind hole
    is a lone hole and a lone hole has no partner: it holds for a fresh
    hole and after any sequence of renderings, blind toggles, lone
    toggles, partner clicks and result clicks.  On a hole that obeys the rule the engine
    does score a blind hole as solo play without a partner. *)
Theorem game_screen_exclusive :
  (∀ evs, exclusive (fold_left handle evs emptyHole))
  ∧ (∀ g i, exclusive (holeAt g i) → blind (holeAt g i) = true →
       asSolo (holeAt g i) = holeAt g i ∧ scoredAsSolo g i).
Proof.
  split.
  - assert (H : ∀ evs h, exclusive h → exclusive (fold_left handle evs h)).
    { induction evs as [| ev evs IH]; intros h Hh; [done |].
      simpl. by apply IH, handle_exclusive. }
    intros evs. apply H. by split.
  - intros g i [Hb Hl] Hblind.
    assert (E : asSolo (holeAt g i) = holeAt g i).
    { unfold asSolo. rewrite <- (Hl (Hb Hblind)), <- (Hb Hblind).
      by destruct (holeAt g i). }
    split; [done |]. unfold scoredAsSolo. rewrite E.
    rewrite withHole_same; [done |].
    unfold holeAt in *. by destruct (holes g !! i).
Qed.

Lemma game_screen_exclusive_witness :
  scoredAsSolo game3 2.
Proof.
  destruct game_screen_exclusive as [_ H].
  apply (H game3 2%nat); [| reflexivity].
  split; [reflexivity | reflexivity].
Defined.

Lemma holeAt_withHole (g : Game) (i : nat) (h : Hole) :
  (i < length (holes g))%nat → holeAt (withHole g i h) i = h.
Proof.
  intros Hi. unfold holeAt, withHole. simpl.
  by rewrite list_lookup_insert_eq.
Qed.

Lemma onSaveHole_accepts (g : Game) (i : nat) (h h' : Hole) :
  onSaveHole g i h = (h', true) →
  (blind h' = true → loneWolf h' = true ∧ partnerId h' = None)
  ∧ (result h' = Some TIE
     ∨ (decisive h'
        ∧ loneWolf h'
          || negb (invalidPartner (partnerId h') (wolfIdOf (rotatedOrderForHole g i)))
          = true)).
Proof.
  destruct h as [pa lw re bl]. unfold onSaveHole, decisive. simpl.
  destruct bl, re as [[| |] |], lw; simpl; intros Hs; simplify_eq/=;
    (split; [done |]); auto.
Qed.

(** X16.  A hole that the Save handler accepts is a hole the engine
    scores: when the handler gets as far as saving, the hole it leaves in
    the game has a result, is a tie or has a lone wolf or a usable partner,
    obeys the blind rule, and its entry in the breakdown is not
    NOT_SCORED. *)
Theorem onSaveHole_scored (g : Game) (i : nat) (h h' : Hole) :
  onSaveHole g i h = (h', true) →
  (i < length (holes g))%nat → (i < holeCount g)%nat →
  (blind h' = true → loneWolf h' = true ∧ partnerId h' = None)
  ∧ holeStatus (withHole g i h') i ≠ NOT_SCORED
  ∧ ∃ e, perHole (computeScores (withHole g i h')) !! i = Some e
         ∧ status e ≠ NOT_SCORED.
Proof.
  intros Hsave Hi Hc.
  destruct (onSaveHole_accepts g i h h' Hsave) as [Hex Hok].
  assert (Hst : holeStatus (withHole g i h') i ≠ NOT_SCORED).
  { unfold holeStatus. rewrite holeAt_withHole by done.
    change (rotatedOrderForHole (withHole g i h') i) with (rotatedOrderForHole g i).
    destruct Hok as [-> | [[-> | ->] ->]]; [done | done | done]. }
  split_and!; try done.
  destruct (breakdown_lookup (withHole g i h') i Hc) as (e & He & _ & Hs).
  exists e. split; [done |]. by rewrite Hs.
Qed.

Lemma onSaveHole_scored_witness :
  ∃ e, perHole (computeScores (withHole game5 1 (team "p1" WOLF))) !! 1%nat = Some e
       ∧ status e ≠ NOT_SCORED.
Proof.
  assert (H1 : onSaveHole game5 1 (team "p1" WOLF) = (team "p1" WOLF, true))
    by reflexivity.
  assert (H2 : (1 < length (holes game5))%nat) by (simpl; lia).
  assert (H3 : (1 < holeCount game5)%nat) by (simpl; lia).
  exact (proj2 (proj2 (onSaveHole_scored game5 1 _ _ H1 H2 H3))).
Defined.

(** ** Clearing the blind flags *)

Lemma scoreHole_congr_fields g g' st i :
  players g' = players g → options g' = options g →
  partnerId (holeAt g' i) = partnerId (holeAt g i) →
  loneWolf (holeAt g' i) = loneWolf (holeAt g i) →
  result (holeAt g' i) = result (holeAt g i) →
  isBlind g' (holeAt g' i) = isBlind g (holeAt g i) →
  scoreHole g' st i = scoreHole g st i.
Proof.
  intros Hp Ho Hpa Hl Hr Hb.
  unfold scoreHole, wagerPerPlayer, baseWagerPerPlayer, sides,
    rotatedOrderForHole, playerIds.
  by rewrite Hb, Hp, Ho, Hpa, Hl, Hr.
Qed.

Lemma holeAt_clearBlind (g : Game) (i : nat) :
  holeAt (withHoles g (clearBlind <$> holes g)) i = clearBlind (holeAt g i).
Proof.
  unfold holeAt, withHoles. simpl. rewrite list_lookup_fmap.
  by destruct (holes g !! i).
Qed.

(** X17.  Clearing the blind flags when the blind-wolf option is off, as
    starting a game and saving the settings do, changes no score, and after
    it a hole is blind only in a game that has the option on. *)
Theorem clearBlindFlags_scores (g : Game) :
  computeScores (clearBlindFlags g) = computeScores g
  ∧ Forall (λ h, blind h = true → blindWolf (options g) = true)
      (holes (clearBlindFlags g)).
Proof.
  unfold clearBlindFlags. destruct (blindWolf (options g)) eqn:Hopt.
  - split; [done |]. apply Forall_forall. done.
  - fold (withHoles g (clearBlind <$> holes g)). split.
    + unfold computeScores.
      change (holeCount (withHoles g (clearBlind <$> holes g))) with (holeCount g).
      assert (E : ∀ k, loop (withHoles g (clearBlind <$> holes g)) k = loop g k).
      { induction k as [| k IH]; [done |].
        rewrite !loop_S, IH. apply scoreHole_congr_fields; try done;
          rewrite ?holeAt_clearBlind; try done.
        unfold isBlind. simpl. by rewrite Hopt. }
      by rewrite E.
    + apply Forall_forall. intros h Hh. simpl in Hh.
      apply list_elem_of_fmap in Hh as (h0 & -> & _). done.
Qed.

(** ** The earlier engine *)

Lemma sumZ_share_single (ids : list string) k z :
  NoDup ids → k ∈ ids → sumZ (share [k] z) ids = z.
Proof.
  induction ids as [| x ids IH]; intros Hnd Hk; [by apply not_elem_of_nil in Hk |].
  apply NoDup_cons in Hnd as [Hx Hnd]. unfold sumZ. cbn [foldr]. fold (sumZ (share [k] z) ids).
  destruct (decide (x = k)) as [-> | Hne].
  - unfold share at 1. rewrite decide_True by apply list_elem_of_here.
    rewrite (sumZ_ext _ (λ _, 0)); [rewrite sumZ_const; lia |].
    intros p Hp. unfold share. rewrite decide_False; [done |].
    rewrite list_elem_of_singleton. intros ->. done.
  - unfold share at 1. rewrite decide_False.
    + rewrite IH; [lia | done |]. apply elem_of_cons in Hk as [-> | Hk]; done.
    + rewrite list_elem_of_singleton. done.
Qed.

Section Tally.
Context (ids : list string) (m : Z).
Hypothesis Hnd : NoDup ids.

Lemma totalsAre_addTo o tot k z :
  k ∈ ids → (m | z) → totalsAre ids m o tot → totalsAre ids m (addTo o k z) (tot + z).
Proof.
  intros Hk Hz (f & Hf & Hs & Hd).
  exists (λ p, f p + share [k] z p). split_and!.
  - by apply intOn_addTo.
  - rewrite sumZ_plus, Hs, sumZ_share_single; done.
  - intros p. apply Z.divide_add_r; [done |]. unfold share.
    case_decide; [done | apply Z.divide_0_r].
Qed.

Lemma totalsAre_addToAll l : ∀ o tot z,
  (∀ x, x ∈ l → x ∈ ids) → (m | z) → totalsAre ids m o tot →
  totalsAre ids m (Legacy.addToAll o l z) (tot + z * Z.of_nat (length l)).
Proof.
  induction l as [| x l IH]; intros o tot z Hl Hz H.
  - change (Legacy.addToAll o [] z) with o.
    replace (tot + z * Z.of_nat (@length string [])) with tot by (simpl; lia).
    done.
  - change (Legacy.addToAll o (x :: l) z) with (Legacy.addToAll (addTo o x z) l z).
    replace (tot + z * Z.of_nat (length (x :: l)))
      with ((tot + z) + z * Z.of_nat (length l)) by (simpl length; lia).
    apply IH; [| done |].
    + intros y Hy. by apply Hl, list_elem_of_further.
    + apply totalsAre_addTo; [apply Hl, list_elem_of_here | done | done].
Qed.

(** After the first winner every winner gets the plain share. *)
Lemma distribute_rest l : ∀ o (pos : nat → nat) shareUnits remainder,
  (∀ j, pos j ≠ 0%nat) →
  fold_left
    (λ o' '(idx, pid),
       addTo o' pid (shareUnits + (if (idx =? 0)%nat then remainder else 0)))
    (imap (λ idx pid, (pos idx, pid)) l) o
  = Legacy.addToAll o l shareUnits.
Proof.
  induction l as [| x l IH]; intros o pos s r Hpos; [done |].
  rewrite imap_cons. cbn [fold_left].
  change (Legacy.addToAll o (x :: l) s) with (Legacy.addToAll (addTo o x s) l s).
  destruct (Nat.eqb_spec (pos 0%nat) 0) as [E | _]; [by apply Hpos in E |].
  rewrite Z.add_0_r. apply (IH _ (pos ∘ S)). intros j. apply Hpos.
Qed.

Lemma distribute_cons o w ws shareUnits remainder :
  Legacy.distribute o (w :: ws) shareUnits remainder
  = Legacy.addToAll (addTo o w (shareUnits + remainder)) ws shareUnits.
Proof.
  unfold Legacy.distribute. rewrite imap_cons. cbn [fold_left Nat.eqb].
  apply (distribute_rest ws _ S). done.
Qed.

Lemma totalsAre_distribute o tot w ws shareUnits remainder :
  (∀ x, x ∈ w :: ws → x ∈ ids) → (m | shareUnits) → (m | remainder) →
  totalsAre ids m o tot →
  totalsAre ids m (Legacy.distribute o (w :: ws) shareUnits remainder)
    (tot + shareUnits * Z.of_nat (length (w :: ws)) + remainder).
Proof.
  intros Hl Hs Hr H. rewrite distribute_cons.
  replace (tot + shareUnits * Z.of_nat (length (w :: ws)) + remainder)
    with ((tot + (shareUnits + remainder)) + shareUnits * Z.of_nat (length ws))
    by (simpl length; lia).
  apply totalsAre_addToAll; [| done |].
  - intros y Hy. by apply Hl, list_elem_of_further.
  - apply totalsAre_addTo; [apply Hl, list_elem_of_here | | done].
    by apply Z.divide_add_r.
Qed.

End Tally.

Lemma totalsAre_eq ids m o (a b : Z) :
  totalsAre ids m o a → a = b → totalsAre ids m o b.
Proof. by intros H <-. Qed.

Lemma legacy_scoreHole_totals (g : Game) (st : Legacy.State) (i : nat) (m : Z) :
  NoDup (playerIds g) → (3 ≤ length (players g))%nat →
  partnerKnown g (holeAt g i) →
  m = 1 ∨ (m = 6 ∧ length (players g) = 4%nat) →
  totalsAre (playerIds g) m (Legacy.st_totals st) 0 →
  totalsAre (playerIds g) m (Legacy.st_totals (Legacy.scoreHole g st i)) 0.
Proof.
  intros Hnd HN Hpk Hm Htot.
  assert (Hne : players g ≠ []) by (destruct (players g); [simpl in HN; lia | done]).
  destruct (order_facts g i Hnd Hne) as (w & Hw & Hsnoc & Hwin & Hndo).
  pose proof (length_rotatedOrder g i) as Hlen.
  assert (Hlo : length (othersOf (rotatedOrderForHole g i))
                = (length (players g) - 1)%nat).
  { rewrite Hsnoc, length_app in Hlen. simpl in Hlen. lia. }
  assert (Hoin : ∀ x, x ∈ othersOf (rotatedOrderForHole g i) → x ∈ playerIds g).
  { intros x Hx. rewrite <- (rotatedOrder_perm g i), Hsnoc, elem_of_app. by left. }
  unfold Legacy.scoreHole. rewrite Hw. simpl propertyKey.
  set (mu := (if pushTies (options g) then Legacy.st_pushCount st + 1 else 1)
             * (if blindWolf (options g) && blind (holeAt g i) then 2 else 1)
             * Legacy.POINTS_UNIT).
  assert (Hmu : (m | mu)).
  { destruct Hm as [-> | [-> _]]; [apply Z.divide_1_l |].
    unfold mu, Legacy.POINTS_UNIT. apply Z.divide_mul_r, Z.divide_refl. }
  assert (Hmu' : (m | - (1 * mu))).
  { apply Z.divide_opp_r. by rewrite Z.mul_1_l. }
  assert (H1mu : (m | 1 * mu)) by (by rewrite Z.mul_1_l).
  destruct (result (holeAt g i)) as [r |] eqn:Hr; [| done].
  destruct (decide (r = TIE)) as [-> | Hnt]; [done |].
  destruct (loneWolf (holeAt g i)) eqn:Hlone.
  - (* lone wolf *)
    set (k := length (othersOf (rotatedOrderForHole g i))) in *.
    assert (Hswing : (m | Z.of_nat k * 1 * mu)) by (by apply Z.divide_mul_r).
    assert (Hlw : ∀ wolfWon : bool,
      totalsAre (playerIds g) m
        (if wolfWon
         then Legacy.addToAll (addTo (Legacy.st_totals st) w (Z.of_nat k * 1 * mu))
                (othersOf (rotatedOrderForHole g i)) (- (1 * mu))
         else Legacy.addToAll (addTo (Legacy.st_totals st) w (- (Z.of_nat k * 1 * mu)))
                (othersOf (rotatedOrderForHole g i)) (1 * mu)) 0).
    { intros [].
      - eapply totalsAre_eq.
        + apply totalsAre_addToAll; [done | done | done |].
          apply totalsAre_addTo; [done | done | exact Hswing | exact Htot].
        + unfold k. ring.
      - eapply totalsAre_eq.
        + apply totalsAre_addToAll; [done | done | done |].
          apply totalsAre_addTo;
            [done | done | apply Z.divide_opp_r; exact Hswing | exact Htot].
        + unfold k. ring. }
    destruct r; [| | done].
    + rewrite bool_decide_true by done. apply (Hlw true).
    + rewrite bool_decide_false by done. apply (Hlw false).
  - (* team *)
    destruct (invalidPartner (partnerId (holeAt g i)) (Some w)) eqn:Hinv.
    { destruct r; done. }
    destruct (invalidPartner_false _ _ Hinv) as (p & Hp & _ & Hpw).
    rewrite Hp. simpl propertyKey.
    assert (Hs := sides_team (rotatedOrderForHole g i) (holeAt g i) true w p
                    Hlone Hw Hp ltac:(by rewrite Hw)).
    pose proof (sides_partition g i Hnd Hne _ _ _ _ _ Hpk Hs) as HP.
    remember (filter (λ pid, pid ∉ [w; p]) (rotatedOrderForHole g i)) as rest
      eqn:Erest.
    clear Erest Hs.
    pose proof (Permutation_length HP) as HPl.
    rewrite length_app, length_playerIds in HPl. simpl in HPl.
    assert (Hteam : ∀ x, x ∈ [w; p] → x ∈ playerIds g).
    { intros x Hx. rewrite <- HP, elem_of_app. by left. }
    assert (Hrest : ∀ x, x ∈ rest → x ∈ playerIds g).
    { intros x Hx. rewrite <- HP, elem_of_app. by right. }
    assert (Hsplit : ∀ (W L : list string) w0 ws,
      W = w0 :: ws → (∀ x, x ∈ W → x ∈ playerIds g) → (∀ x, x ∈ L → x ∈ playerIds g) →
      (m = 6 → length W = 2%nat ∧ length L = 2%nat) →
      totalsAre (playerIds g) m
        (Legacy.distribute
           (Legacy.addToAll (Legacy.st_totals st) L (- (1 * mu))) W
           ((Z.of_nat (length L) * 1 * mu) `div` Z.of_nat (length W))
           (Z.of_nat (length L) * 1 * mu
            - (Z.of_nat (length L) * 1 * mu) `div` Z.of_nat (length W)
              * Z.of_nat (length W))) 0).
    { intros W L w0 ws EW HW HL H6.
      set (pot := Z.of_nat (length L) * 1 * mu).
      set (sh := pot `div` Z.of_nat (length W)).
      assert (Hdiv : (m | sh) ∧ (m | pot - sh * Z.of_nat (length W))).
      { destruct Hm as [-> | [-> _]]; [split; apply Z.divide_1_l |].
        destruct (H6 eq_refl) as [E1 E2]. unfold sh, pot. rewrite E1, E2.
        replace (Z.of_nat 2 * 1 * mu) with (mu * 2) by lia.
        rewrite Z.div_mul by lia. split; [done |].
        replace (mu * 2 - mu * Z.of_nat 2) with 0 by lia. apply Z.divide_0_r. }
      destruct Hdiv as [Hd1 Hd2].
      eapply totalsAre_eq.
      + subst W.
        apply totalsAre_distribute; [done | done | exact Hd1 | exact Hd2 |].
        apply totalsAre_addToAll; [done | done | done | exact Htot].
      + unfold pot. ring. }
    assert (H6 : m = 6 → length [w; p] = 2%nat ∧ length rest = 2%nat).
    { intros E. destruct Hm as [-> | [_ E4]]; [done |]. simpl. lia. }
    destruct r; [| | done].
    + rewrite bool_decide_true by done.
      apply (Hsplit [w; p] rest w [p]); [done | done | done | done].
    + rewrite bool_decide_false by done.
      destruct rest as [| q rest']; [simpl in HPl; lia |].
      apply (Hsplit (q :: rest') [w; p] q rest'); [done | done | done |].
      intros E. destruct (H6 E) as [E1 E2]. done.
Qed.

Lemma legacy_loop_totals (g : Game) (m : Z) (k : nat) :
  wellFormed g → (3 ≤ length (players g))%nat →
  m = 1 ∨ (m = 6 ∧ length (players g) = 4%nat) →
  totalsAre (playerIds g) m (Legacy.st_totals (Legacy.loop g k)) 0.
Proof.
  intros Hwf HN Hm. induction k as [| k IH].
  - exists (λ _, 0). split_and!.
    + apply intOn_zeroObject.
    + rewrite sumZ_const. lia.
    + intros _. apply Z.divide_0_r.
  - rewrite legacy_loop_S.
    apply legacy_scoreHole_totals; [apply Hwf | done | | done | done].
    by apply partnerKnown_holeAt.
Qed.

(** X18.  The earlier, pooled-pot engine is zero-sum as well: in a
    well-formed game with at least three players every total is an integer
    number of units and the totals add up to zero; what the integer division
    of the pot leaves over goes to the first winner and is not lost. *)
Theorem legacy_zero_sum (g : Game) :
  wellFormed g → (3 ≤ length (players g))%nat →
  sumOver (Legacy.totals (Legacy.computeScores g)) (playerIds g) = Int 0
  ∧ ∀ p, p ∈ playerIds g →
      ∃ z, Legacy.totals (Legacy.computeScores g) !! p = Some (Int z).
Proof.
  intros Hwf HN.
  destruct (legacy_loop_totals g 1 (holeCount g) Hwf HN (or_introl eq_refl))
    as (f & Hf & Hs & _).
  split.
  - simpl. by rewrite (sumOver_intOn _ _ f _ (reflexivity _) Hf), Hs.
  - intros p Hp. exists (f p). by apply Hf.
Qed.

Lemma legacy_zero_sum_witness :
  sumOver (Legacy.totals (Legacy.computeScores game7)) (playerIds game7) = Int 0.
Proof.
  assert (H1 : wellFormed game7) by (apply (bool_decide_unpack _); vm_compute; exact I).
  assert (H2 : (3 ≤ length (players game7))%nat) by (simpl; lia).
  exact (proj1 (legacy_zero_sum game7 H1 H2)).
Defined.

Lemma formatPointsIn_multiple (unit z : Z) :
  0 < unit → formatPointsIn unit (unit * z) = pretty z.
Proof.
  intros Hu. unfold formatPointsIn.
  assert (E : Z.abs (unit * z) = Z.abs z * unit).
  { rewrite Z.abs_mul, (Z.abs_eq unit) by lia. apply Z.mul_comm. }
  rewrite E, Z.mod_mul, Z.div_mul by lia. cbn [Z.eqb].
  destruct z as [| q | q].
  - rewrite Z.mul_0_r. reflexivity.
  - destruct (Z.ltb_spec (unit * Z.pos q) 0) as [H | H]; [nia | reflexivity].
  - destruct (Z.ltb_spec (unit * Z.neg q) 0) as [H | H]; [reflexivity | nia].
Qed.

(** X19.  With four players the earlier engine never produces a fraction
    of a point: in a well-formed four-player game every total is a whole
    number of points (a multiple of the six units of a point), which
    [formatPoints] prints as a plain integer. *)
Theorem legacy_four_players_whole_points (g : Game) (p : string) :
  wellFormed g → length (players g) = 4%nat → p ∈ playerIds g →
  ∃ z, Legacy.totals (Legacy.computeScores g) !! p
       = Some (Int (Legacy.POINTS_UNIT * z))
       ∧ formatPointsIn Legacy.POINTS_UNIT (Legacy.POINTS_UNIT * z) = pretty z.
Proof.
  intros Hwf H4 Hp.
  destruct (legacy_loop_totals g 6 (holeCount g) Hwf ltac:(lia)
              (or_intror (conj eq_refl H4)))
    as (f & Hf & _ & Hd).
  destruct (Hd p) as [z Hz]. exists z. split.
  - simpl. rewrite (Hf p Hp), Hz. unfold Legacy.POINTS_UNIT. do 2 f_equal. lia.
  - by apply formatPointsIn_multiple.
Qed.

Lemma legacy_four_players_whole_points_witness :
  ∃ z, Legacy.totals (Legacy.computeScores game7) !! "p4"%string
       = Some (Int (Legacy.POINTS_UNIT * z)).
Proof.
  assert (H1 : wellFormed game7) by (apply (bool_decide_unpack _); vm_compute; exact I).
  assert (H2 : "p4"%string ∈ playerIds game7)
    by (vm_compute; do 3 apply list_elem_of_further; apply list_elem_of_here).
  destruct (legacy_four_players_whole_points game7 "p4" H1 eq_refl H2) as (z & Hz & _).
  by exists z.
Defined.

(** ** The carry, in closed form *)

Lemma carry_step_tie g k :
  result (holeAt g k) = Some TIE →
  carryPerPlayer (loop g (S k))
  = carryPerPlayer (loop g k) + (if pushTies (options g) then 1 else 0).
Proof.
  intros Hr. rewrite loop_S, (scoreHole_tie g _ k Hr). simpl.
  destruct (pushTies (options g)); simpl; lia.
Qed.

Lemma carry_step_null g k :
  result (holeAt g k) = None →
  carryPerPlayer (loop g (S k)) = carryPerPlayer (loop g k).
Proof. intros Hr. by rewrite loop_S, (scoreHole_null g _ k Hr). Qed.

(** X20.  With pushed ties the carry in force at a hole is the number of
    tied holes since the last decisive hole (or since the start when there
    is none); holes without a result in between neither add to it nor
    clear it. *)
Theorem carry_counts_ties (g : Game) (d k : nat) :
  pushTies (options g) = true →
  (d ≤ k)%nat →
  (d = 0%nat ∨ decisive (holeAt g (d - 1))) →
  (∀ i, (d ≤ i < k)%nat → ¬ decisive (holeAt g i)) →
  carryPerPlayer (loop g k)
  = Z.of_nat (length (filter (λ i, result (holeAt g i) = Some TIE) (seq d (k - d)))).
Proof.
  intros Hpush Hdk Hd Hnone.
  assert (H0 : carryPerPlayer (loop g d) = 0).
  { destruct Hd as [-> | Hd]; [done |].
    destruct d as [| d]; [done |].
    replace (S d - 1)%nat with d in Hd by lia.
    by rewrite loop_S, (carry_decisive g _ d Hd), Hpush. }
  induction k as [| k IH].
  - by replace d with 0%nat in * by lia.
  - destruct (decide (d = S k)) as [-> | Hne].
    { by rewrite Nat.sub_diag. }
    replace (S k - d)%nat with (S (k - d)) by lia.
    rewrite seq_S, filter_app, length_app, Nat2Z.inj_add.
    rewrite <- IH by (try lia; intros i Hi; apply Hnone; lia).
    replace (d + (k - d))%nat with k by lia.
    assert (Hk : ¬ decisive (holeAt g k)) by (apply Hnone; lia).
    destruct (result (holeAt g k)) as [[| |] |] eqn:Hr.
    + exfalso. apply Hk. by left.
    + exfalso. apply Hk. by right.
    + rewrite (carry_step_tie g k Hr), Hpush.
      rewrite filter_cons_True by done. simpl. lia.
    + rewrite (carry_step_null g k Hr).
      rewrite filter_cons_False by (by rewrite Hr). simpl. lia.
Qed.

Lemma carry_counts_ties_witness : carryPerPlayer (loop game4 2) = 2.
Proof.
  assert (H1 : pushTies (options game4) = true) by reflexivity.
  assert (H2 : (0 ≤ 2)%nat) by lia.
  assert (H3 : 0%nat = 0%nat ∨ decisive (holeAt game4 (0 - 1))) by (left; reflexivity).
  assert (H4 : ∀ i, (0 ≤ i < 2)%nat → ¬ decisive (holeAt game4 i)).
  { intros i Hi [H | H]; destruct i as [| [| i]]; try lia; discriminate H. }
  rewrite (carry_counts_ties game4 0 2 H1 H2 H3 H4). reflexivity.
Defined.

(** ** Where the two engines agree *)

Lemma intOn_addToAll (ids : list string) l : ∀ o f z,
  NoDup l → intOn ids o f →
  intOn ids (Legacy.addToAll o l z) (λ p, f p + share l z p).
Proof.
  induction l as [| x l IH]; intros o f z Hnd H.
  - eapply intOn_ext; [| exact H]. intros p _. rewrite share_nil. lia.
  - apply NoDup_cons in Hnd as [Hx Hnd].
    change (Legacy.addToAll o (x :: l) z) with (Legacy.addToAll (addTo o x z) l z).
    eapply intOn_ext; [| apply (IH _ _ z Hnd (intOn_addTo ids o f x z H))].
    intros p _. cbv beta. rewrite (share_cons x l) by done. lia.
Qed.

Lemma mult_is_wager (g : Game) (c : Z) (h : Hole) :
  pushTies (options g) = false ∨ blindWolf (options g) = false →
  (if pushTies (options g) then c + 1 else 1)
  * (if blindWolf (options g) && blind h then 2 else 1)
  = wagerPerPlayer g c h.
Proof.
  intros Hopt. rewrite wager_unfold.
  destruct Hopt as [-> | ->]; simpl.
  - destruct (blindWolf (options g) && blind h); lia.
  - destruct (pushTies (options g)); lia.
Qed.

Lemma engines_lockstep (g : Game) (k : nat) :
  NoDup (playerIds g) → players g ≠ [] →
  (∀ i, decisive (holeAt g i) → loneWolf (holeAt g i) = true) →
  pushTies (options g) = false ∨ blindWolf (options g) = false →
  intOn (playerIds g) (Legacy.st_totals (Legacy.loop g k))
    (λ p, Legacy.POINTS_UNIT * netSum (st_perHole (loop g k)) p)
  ∧ Legacy.st_pushCount (Legacy.loop g k) = carryPerPlayer (loop g k).
Proof.
  intros Hnd Hne Hlone Hopt. induction k as [| k [IHt IHc]].
  - split; [| done]. simpl. eapply intOn_ext; [| apply intOn_zeroObject].
    intros p _. unfold netSum, sumEntries. simpl. lia.
  - rewrite legacy_loop_S, loop_S.
    set (lst := Legacy.loop g k) in *. set (st := loop g k) in *.
    assert (Hzero : ∀ st' e,
              st_perHole st' = st_perHole st ++ [e] →
              deltaByPlayer e = zeroObject (playerIds g) →
              intOn (playerIds g) (Legacy.st_totals lst)
                (λ p, Legacy.POINTS_UNIT * netSum (st_perHole st') p)).
    { intros st' e -> Hz. eapply intOn_ext; [| exact IHt].
      intros p Hp. cbv beta. unfold netSum. rewrite sumEntries_snoc.
      unfold deltaOf. rewrite Hz, lookup_zeroObject, decide_True by done. lia. }
    destruct (result (holeAt g k)) as [r |] eqn:Hr.
    2:{ rewrite (scoreHole_null g _ k Hr).
        unfold Legacy.scoreHole. rewrite Hr. simpl. split; [| done].
        by apply (Hzero (pushEntry st (notScoredEntry g k)) (notScoredEntry g k)). }
    destruct (decide (r = TIE)) as [-> | Hnt].
    { rewrite (scoreHole_tie g _ k Hr).
      unfold Legacy.scoreHole. rewrite Hr. cbn [Legacy.st_totals Legacy.st_pushCount].
      split.
      - apply (Hzero (pushEntry
                        (if pushTies (options g)
                         then setCarry st (carryPerPlayer st + 1) else st)
                        (tieEntry g k)) (tieEntry g k)); [| done].
        simpl. by rewrite perHole_if.
      - rewrite IHc. simpl. by destruct (pushTies (options g)). }
    assert (Hd : decisive (holeAt g k)).
    { unfold decisive. rewrite Hr. destruct r; auto. done. }
    pose proof (Hlone k Hd) as Hl.
    destruct (order_facts g k Hnd Hne) as (w & Hw & Hsnoc & Hwin & Hndo).
    assert (Hndoth : NoDup (othersOf (rotatedOrderForHole g k))).
    { rewrite Hsnoc in Hndo. by apply NoDup_app in Hndo as (? & _ & _). }
    pose proof (sides_lone (rotatedOrderForHole g k) (holeAt g k)
                  (wolfWonOn (holeAt g k)) Hl) as Hs.
    rewrite Hw in Hs. simpl propertyKey in Hs.
    destruct (Inv_loop g k Hnd) as [I1 I2 I3 _]. fold st in I1, I2, I3.
    destruct (scoreHole_settles g st k _ _ _ Hnd Hne I1 I2 I3 _ _ _ Hd Hs)
      as (e & He & _ & HD & _).
    split.
    2:{ rewrite (carry_decisive g st k Hd).
        unfold Legacy.scoreHole. rewrite Hr, Hl, IHc.
        destruct r; [| | done]; simpl; by destruct (pushTies (options g)). }
    rewrite He.
    assert (Hmult := mult_is_wager g (carryPerPlayer st) (holeAt g k) Hopt).
    rewrite <- IHc in Hmult.
    assert (Hgoal : ∀ wolfWon : bool, wolfWonOn (holeAt g k) = wolfWon →
      intOn (playerIds g)
        (if wolfWon
         then Legacy.addToAll
                (addTo (Legacy.st_totals lst) w
                   (Z.of_nat (length (othersOf (rotatedOrderForHole g k))) * 1
                    * ((if pushTies (options g) then Legacy.st_pushCount lst + 1 else 1)
                       * (if blindWolf (options g) && blind (holeAt g k) then 2 else 1)
                       * Legacy.POINTS_UNIT)))
                (othersOf (rotatedOrderForHole g k))
                (- (1 * ((if pushTies (options g) then Legacy.st_pushCount lst + 1 else 1)
                         * (if blindWolf (options g) && blind (holeAt g k) then 2 else 1)
                         * Legacy.POINTS_UNIT)))
         else Legacy.addToAll
                (addTo (Legacy.st_totals lst) w
                   (- (Z.of_nat (length (othersOf (rotatedOrderForHole g k))) * 1
                       * ((if pushTies (options g) then Legacy.st_pushCount lst + 1 else 1)
                          * (if blindWolf (options g) && blind (holeAt g k) then 2 else 1)
                          * Legacy.POINTS_UNIT))))
                (othersOf (rotatedOrderForHole g k))
                (1 * ((if pushTies (options g) then Legacy.st_pushCount lst + 1 else 1)
                      * (if blindWolf (options g) && blind (holeAt g k) then 2 else 1)
                      * Legacy.POINTS_UNIT)))
        (λ p, Legacy.POINTS_UNIT * netSum (st_perHole st ++ [e]) p)).
    { intros wolfWon Hwon. rewrite Hwon in HD. rewrite Hmult, IHc.
      set (wg := wagerPerPlayer g (carryPerPlayer st) (holeAt g k)) in *.
      set (oth := othersOf (rotatedOrderForHole g k)) in *.
      destruct wolfWon.
      - eapply intOn_ext;
          [| apply (intOn_addToAll _ oth _ _ _ Hndoth
                      (intOn_addTo _ _ _ w _ IHt))].
        intros p Hp. cbv beta. unfold netSum. rewrite sumEntries_snoc.
        rewrite (deltaOf_intOn _ _ _ _ HD Hp).
        unfold transfer. fold wg. unfold share, POINTS_UNIT, Legacy.POINTS_UNIT.
        simpl length.
        destruct (decide (p ∈ [w])), (decide (p ∈ oth)); ring.
      - eapply intOn_ext;
          [| apply (intOn_addToAll _ oth _ _ _ Hndoth
                      (intOn_addTo _ _ _ w _ IHt))].
        intros p Hp. cbv beta. unfold netSum. rewrite sumEntries_snoc.
        rewrite (deltaOf_intOn _ _ _ _ HD Hp).
        unfold transfer. fold wg. unfold share, POINTS_UNIT, Legacy.POINTS_UNIT.
        simpl length.
        destruct (decide (p ∈ [w])), (decide (p ∈ oth)); ring. }
    unfold Legacy.scoreHole. rewrite Hr, Hl, Hw. simpl propertyKey.
    unfold wolfWonOn in Hgoal. rewrite Hr in Hgoal.
    destruct r; [| | done].
    + rewrite bool_decide_true by done.
      apply (Hgoal true). by rewrite bool_decide_true.
    + rewrite bool_decide_false by done.
      apply (Hgoal false). by rewrite bool_decide_false.
Qed.

(** X21.  The two engines differ on team holes only (and on blind holes
    that follow pushed ties): in a game with distinct players in which
    every decisive hole is a lone-wolf hole, and in which ties are not
    pushed or blind wolf is off, every total of the earlier engine is the
    total of the later engine in sixths: six times as many units. *)
Theorem engines_agree_on_lone_holes (g : Game) (p : string) :
  NoDup (playerIds g) → players g ≠ [] →
  (∀ i, decisive (holeAt g i) → loneWolf (holeAt g i) = true) →
  pushTies (options g) = false ∨ blindWolf (options g) = false →
  p ∈ playerIds g →
  ∃ z, totals (computeScores g) !! p = Some (Int z)
       ∧ Legacy.totals (Legacy.computeScores g) !! p
         = Some (Int (Legacy.POINTS_UNIT * z)).
Proof.
  intros Hnd Hne Hlone Hopt Hp.
  destruct (engines_lockstep g (holeCount g) Hnd Hne Hlone Hopt) as [Hl _].
  destruct (Inv_loop g (holeCount g) Hnd) as [I1 _ _ _].
  exists (netSum (st_perHole (loop g (holeCount g))) p). split.
  - by apply I1.
  - by apply Hl.
Qed.

Lemma engines_agree_on_lone_holes_witness :
  ∃ z, totals (computeScores game1) !! "p4"%string = Some (Int z)
       ∧ Legacy.totals (Legacy.computeScores game1) !! "p4"%string
         = Some (Int (Legacy.POINTS_UNIT * z)).
Proof.
  assert (H1 : NoDup (playerIds game1)) by (apply (bool_decide_unpack _); vm_compute; exact I).
  assert (H2 : players game1 ≠ []) by done.
  assert (H3 : ∀ i, decisive (holeAt game1 i) → loneWolf (holeAt game1 i) = true).
  { intros [| i] [H | H]; try reflexivity; destruct i; discriminate H. }
  assert (H4 : pushTies (options game1) = false ∨ blindWolf (options game1) = false)
    by (left; reflexivity).
  assert (H5 : "p4"%string ∈ playerIds game1)
    by (vm_compute; do 3 apply list_elem_of_further; apply list_elem_of_here).
  exact (engines_agree_on_lone_holes game1 "p4" H1 H2 H3 H4 H5).
Defined.
